(** * A shallow embedding of [redBlackTree.py]

    The Python program keeps its nodes as heap objects that point at each
    other ([parent], [left], [right]) and shares one sentinel object
    [self.nil] for every absent child and for the parent of the root.
    The embedding keeps that shape: the objects live in an arena
    ([list Node]), a reference is an index into the arena, and every
    method is a function on the whole tree object, written statement by
    statement in the order of the source.  Loops and recursive methods
    carry a [fuel] argument and return [None] when it runs out. *)

From stdpp Require Import base decidable option list numbers strings pretty.
From Stdlib Require Import ZArith Lia.

Local Open Scope Z_scope.

(** ** Data model *)

(** A reference to a [Node] object: its index in the arena. *)
Definition ref := nat.

(** [class Node]: [color] is the integer of the source, [1] for red and
    [0] for black. *)
Record Node := mkNode {
  key : Z;
  parent : ref;
  left : ref;
  right : ref;
  color : Z
}.

Definition RED : Z := 1.
Definition BLACK : Z := 0.

#[global] Instance Node_eq_dec : EqDecision Node.
Proof. solve_decision. Defined.

(** [class RedBlackTree]: the two attributes [nil] and [root], the arena
    holding every [Node] ever constructed for this tree, and the lines the
    methods have printed so far. *)
Record RedBlackTree := mkTree {
  heap : list Node;
  nil : ref;
  root : ref;
  stdout : list string
}.

#[global] Instance RedBlackTree_eq_dec : EqDecision RedBlackTree.
Proof. solve_decision. Defined.

(** Reading an object.  Every reference the program holds is the index of
    an object it has constructed, so the default is never observed on a
    tree built by the methods. *)
Definition node (t : RedBlackTree) (x : ref) : Node :=
  default (mkNode 0 0%nat 0%nat 0%nat 0) (heap t !! x).

Definition key_of (t : RedBlackTree) (x : ref) : Z := key (node t x).
Definition parent_of (t : RedBlackTree) (x : ref) : ref := parent (node t x).
Definition left_of (t : RedBlackTree) (x : ref) : ref := left (node t x).
Definition right_of (t : RedBlackTree) (x : ref) : ref := right (node t x).
Definition color_of (t : RedBlackTree) (x : ref) : Z := color (node t x).

(** Attribute assignments [x.f = v]. *)
Definition set_node (x : ref) (n : Node) (t : RedBlackTree) : RedBlackTree :=
  mkTree (<[x := n]> (heap t)) (nil t) (root t) (stdout t).

Definition set_parent (x v : ref) (t : RedBlackTree) : RedBlackTree :=
  let n := node t x in set_node x (mkNode (key n) v (left n) (right n) (color n)) t.
Definition set_left (x v : ref) (t : RedBlackTree) : RedBlackTree :=
  let n := node t x in set_node x (mkNode (key n) (parent n) v (right n) (color n)) t.
Definition set_right (x v : ref) (t : RedBlackTree) : RedBlackTree :=
  let n := node t x in set_node x (mkNode (key n) (parent n) (left n) v (color n)) t.
Definition set_color (x : ref) (c : Z) (t : RedBlackTree) : RedBlackTree :=
  let n := node t x in set_node x (mkNode (key n) (parent n) (left n) (right n) c) t.

(** [self.root = v] *)
Definition set_root (v : ref) (t : RedBlackTree) : RedBlackTree :=
  mkTree (heap t) (nil t) v (stdout t).

(** [print(line)] *)
Definition print (line : string) (t : RedBlackTree) : RedBlackTree :=
  mkTree (heap t) (nil t) (root t) (stdout t ++ [line]).

(** [RedBlackTree.__init__]: the sentinel is the first object, black, with
    its three links pointing at itself; the root is the sentinel. *)
Definition init : RedBlackTree :=
  mkTree [mkNode 0 0%nat 0%nat 0%nat BLACK] 0%nat 0%nat [].

(** [Node(key)] followed by the three assignments of [insert]: a fresh red
    node whose links are the sentinel. *)
Definition new_node (k : Z) (t : RedBlackTree) : ref * RedBlackTree :=
  (length (heap t),
   mkTree (heap t ++ [mkNode k (nil t) (nil t) (nil t) RED])
          (nil t) (root t) (stdout t)).

(** How a call of [insert] or [delete_node] ends for its caller.  Both
    methods end in a bare [return] or run off their last statement, so
    they hand back Python's [None]; the program has no [raise].
    [Raise] is there to state what an interface with error results
    would do: [DuplicateKeyError] and [KeyNotFoundError] are the error
    kinds the interface description names. *)
Inductive error := DuplicateKeyError | KeyNotFoundError.
Inductive completion := ReturnNone | Raise (e : error).

(** ** Queries *)

(** [minimum]: [while node.left != self.nil: node = node.left] *)
Fixpoint minimum (fuel : nat) (t : RedBlackTree) (n : ref) : option ref :=
  match fuel with
  | O => None
  | S fuel =>
      if decide (left_of t n ≠ nil t) then minimum fuel t (left_of t n)
      else Some n
  end.

(** [maximum]: [while node.right != self.nil: node = node.right] *)
Fixpoint maximum (fuel : nat) (t : RedBlackTree) (n : ref) : option ref :=
  match fuel with
  | O => None
  | S fuel =>
      if decide (right_of t n ≠ nil t) then maximum fuel t (right_of t n)
      else Some n
  end.

(** The upward loop of [successor]:
    [while y != self.nil and x == y.right: x = y; y = y.parent] *)
Fixpoint successor_up (fuel : nat) (t : RedBlackTree) (x y : ref) : option ref :=
  match fuel with
  | O => None
  | S fuel =>
      if decide (y ≠ nil t ∧ x = right_of t y)
      then successor_up fuel t y (parent_of t y)
      else Some y
  end.

Definition successor (fuel : nat) (t : RedBlackTree) (x : ref) : option ref :=
  if decide (right_of t x ≠ nil t) then minimum fuel t (right_of t x)
  else successor_up fuel t x (parent_of t x).

(** The upward loop of [predecessor]. *)
Fixpoint predecessor_up (fuel : nat) (t : RedBlackTree) (x y : ref) : option ref :=
  match fuel with
  | O => None
  | S fuel =>
      if decide (y ≠ nil t ∧ x = left_of t y)
      then predecessor_up fuel t y (parent_of t y)
      else Some y
  end.

Definition predecessor (fuel : nat) (t : RedBlackTree) (x : ref) : option ref :=
  if decide (left_of t x ≠ nil t) then maximum fuel t (left_of t x)
  else predecessor_up fuel t x (parent_of t x).

(** [find_helper]: recursive binary search. *)
Fixpoint find_helper (fuel : nat) (t : RedBlackTree) (k : Z) (n : ref) : option ref :=
  match fuel with
  | O => None
  | S fuel =>
      if decide (n = nil t ∨ key_of t n = k) then Some n
      else if decide (k < key_of t n) then find_helper fuel t k (left_of t n)
      else find_helper fuel t k (right_of t n)
  end.

Definition find (fuel : nat) (t : RedBlackTree) (k : Z) : option ref :=
  if decide (root t = nil t) then Some (nil t)
  else find_helper fuel t k (root t).

(** [height]: the sentinel has height [0], any other node one more than
    the taller of its two subtrees. *)
Fixpoint height (fuel : nat) (t : RedBlackTree) (n : ref) : option Z :=
  match fuel with
  | O => None
  | S fuel =>
      if decide (n = nil t) then Some 0
      else
        l_height ← height fuel t (left_of t n);
        r_height ← height fuel t (right_of t n);
        Some (Z.max l_height r_height + 1)
  end.

(** ** Rotations *)

Definition left_rotate (x : ref) (t : RedBlackTree) : RedBlackTree :=
  let y := right_of t x in
  let t := set_right x (left_of t y) t in
  let t := if decide (left_of t y ≠ nil t)
           then set_parent (left_of t y) x t else t in
  let t := set_parent y (parent_of t x) t in
  let t := if decide (parent_of t x = nil t) then set_root y t
           else if decide (x = left_of t (parent_of t x))
                then set_left (parent_of t x) y t
                else set_right (parent_of t x) y t in
  let t := set_left y x t in
  set_parent x y t.

Definition right_rotate (y : ref) (t : RedBlackTree) : RedBlackTree :=
  let x := left_of t y in
  let t := set_left y (right_of t x) t in
  let t := if decide (right_of t x ≠ nil t)
           then set_parent (right_of t x) y t else t in
  let t := set_parent x (parent_of t y) t in
  let t := if decide (parent_of t y = nil t) then set_root x t
           else if decide (y = left_of t (parent_of t y))
                then set_left (parent_of t y) x t
                else set_right (parent_of t y) x t in
  let t := set_right x y t in
  set_parent y x t.

(** ** Insertion *)

(** One pass through the body of the [while] loop of [insert_fixup]; the
    result is the new [z] and the tree after the assignments. *)
Definition insert_fixup_body (z : ref) (t : RedBlackTree) : ref * RedBlackTree :=
  if decide (parent_of t z = left_of t (parent_of t (parent_of t z))) then
    let y := right_of t (parent_of t (parent_of t z)) in
    if decide (color_of t y = 1) then
      let t := set_color (parent_of t z) 0 t in
      let t := set_color y 0 t in
      let t := set_color (parent_of t (parent_of t z)) 1 t in
      (parent_of t (parent_of t z), t)
    else
      let '(z, t) :=
        if decide (z = right_of t (parent_of t z))
        then let z := parent_of t z in (z, left_rotate z t)
        else (z, t) in
      let t := set_color (parent_of t z) 0 t in
      let t := set_color (parent_of t (parent_of t z)) 1 t in
      (z, right_rotate (parent_of t (parent_of t z)) t)
  else
    let y := left_of t (parent_of t (parent_of t z)) in
    if decide (color_of t y = 1) then
      let t := set_color y 0 t in
      let t := set_color (parent_of t z) 0 t in
      let t := set_color (parent_of t (parent_of t z)) 1 t in
      (parent_of t (parent_of t z), t)
    else
      let '(z, t) :=
        if decide (z = left_of t (parent_of t z))
        then let z := parent_of t z in (z, right_rotate z t)
        else (z, t) in
      let t := set_color (parent_of t z) 0 t in
      let t := set_color (parent_of t (parent_of t z)) 1 t in
      (z, left_rotate (parent_of t (parent_of t z)) t).

(** [while z.parent.color == 1: ...] *)
Fixpoint insert_fixup_loop (fuel : nat) (z : ref) (t : RedBlackTree)
  : option (ref * RedBlackTree) :=
  match fuel with
  | O => None
  | S fuel =>
      if decide (color_of t (parent_of t z) = 1)
      then let '(z, t) := insert_fixup_body z t in insert_fixup_loop fuel z t
      else Some (z, t)
  end.

(** [insert_fixup]: the loop, then [self.root.color = 0]. *)
Definition insert_fixup (fuel : nat) (z : ref) (t : RedBlackTree)
  : option RedBlackTree :=
  '(_, t) ← insert_fixup_loop fuel z t;
  Some (set_color (root t) 0 t).

(** How the descent of [insert] ends: on a node holding the key (the
    early [return]) or at the sentinel, with [y] the last node visited. *)
Inductive descent := KeyExists | Parent (y : ref).

(** [while x != self.nil: y = x; ...] *)
Fixpoint insert_descend (fuel : nat) (t : RedBlackTree) (k : Z) (y x : ref)
  : option descent :=
  match fuel with
  | O => None
  | S fuel =>
      if decide (x ≠ nil t) then
        if decide (k < key_of t x) then insert_descend fuel t k x (left_of t x)
        else if decide (k > key_of t x) then insert_descend fuel t k x (right_of t x)
        else Some KeyExists
      else Some (Parent y)
  end.

Definition insert (fuel : nat) (k : Z) (t : RedBlackTree)
  : option (completion * RedBlackTree) :=
  let '(z, t) := new_node k t in
  d ← insert_descend fuel t (key_of t z) (nil t) (root t);
  match d with
  | KeyExists =>
      let t := print ("key " +:+ pretty k +:+ " already exists in the tree") t in
      Some (ReturnNone, t)
  | Parent y =>
      let t := set_parent z y t in
      if decide (y = nil t) then
        let t := set_root z t in
        let t := set_color z 0 t in
        Some (ReturnNone, t)
      else
        let t := if decide (key_of t z < key_of t y)
                 then set_left y z t else set_right y z t in
        t ← insert_fixup fuel z t;
        Some (ReturnNone, t)
  end.

(** ** Deletion *)

Definition rb_transplant (u v : ref) (t : RedBlackTree) : RedBlackTree :=
  let t := if decide (parent_of t u = nil t) then set_root v t
           else if decide (u = left_of t (parent_of t u))
                then set_left (parent_of t u) v t
                else set_right (parent_of t u) v t in
  set_parent v (parent_of t u) t.

(** The loop condition of [fix_delete]: [x != self.nil and x.color == 0]. *)
Definition fix_delete_cond (x : ref) (t : RedBlackTree) : bool :=
  bool_decide (x ≠ nil t ∧ color_of t x = 0).

(** One pass through the body of the [while] loop of [fix_delete]. *)
Definition fix_delete_body (x : ref) (t : RedBlackTree) : ref * RedBlackTree :=
  if decide (x = left_of t (parent_of t x)) then
    let w := right_of t (parent_of t x) in
    let '(w, t) :=
      if decide (color_of t w = 1) then
        let t := set_color w 0 t in
        let t := set_color (parent_of t x) 1 t in
        let t := left_rotate (parent_of t x) t in
        (right_of t (parent_of t x), t)
      else (w, t) in
    if decide (color_of t (left_of t w) = 0 ∧ color_of t (right_of t w) = 0) then
      let t := set_color w 1 t in
      (parent_of t x, t)
    else
      let '(w, t) :=
        if decide (color_of t (right_of t w) = 0) then
          let t := set_color (left_of t w) 0 t in
          let t := set_color w 1 t in
          let t := right_rotate w t in
          (right_of t (parent_of t x), t)
        else (w, t) in
      let t := set_color w (color_of t (parent_of t x)) t in
      let t := set_color (parent_of t x) 0 t in
      let t := set_color (right_of t w) 0 t in
      let t := left_rotate (parent_of t x) t in
      (root t, t)
  else
    let w := left_of t (parent_of t x) in
    let '(w, t) :=
      if decide (color_of t w = 1) then
        let t := set_color w 0 t in
        let t := set_color (parent_of t x) 1 t in
        let t := right_rotate (parent_of t x) t in
        (left_of t (parent_of t x), t)
      else (w, t) in
    if decide (color_of t (left_of t w) = 0 ∧ color_of t (right_of t w) = 0) then
      let t := set_color w 1 t in
      (parent_of t x, t)
    else
      let '(w, t) :=
        if decide (color_of t (left_of t w) = 0) then
          let t := set_color (right_of t w) 0 t in
          let t := set_color w 1 t in
          let t := left_rotate w t in
          (left_of t (parent_of t x), t)
        else (w, t) in
      let t := set_color w (color_of t (parent_of t x)) t in
      let t := set_color (parent_of t x) 0 t in
      let t := set_color (left_of t w) 0 t in
      let t := right_rotate (parent_of t x) t in
      (root t, t).

(** [while x != self.nil and x.color == 0: ...] *)
Fixpoint fix_delete_loop (fuel : nat) (x : ref) (t : RedBlackTree)
  : option (ref * RedBlackTree) :=
  match fuel with
  | O => None
  | S fuel =>
      if fix_delete_cond x t
      then let '(x, t) := fix_delete_body x t in fix_delete_loop fuel x t
      else Some (x, t)
  end.

(** [fix_delete]: the loop, then [x.color = 0]. *)
Definition fix_delete (fuel : nat) (x : ref) (t : RedBlackTree)
  : option RedBlackTree :=
  '(x, t) ← fix_delete_loop fuel x t;
  Some (set_color x 0 t).

(** The first part of [delete_node_helper], up to the test of
    [y_original_color]: the node [z] is unlinked; the result is [x],
    [y_original_color] and the tree. *)
Definition delete_splice (fuel : nat) (z : ref) (t : RedBlackTree)
  : option (ref * Z * RedBlackTree) :=
  let y := z in
  let y_original_color := color_of t y in
  if decide (left_of t z = nil t) then
    let x := right_of t z in
    Some (x, y_original_color, rb_transplant z (right_of t z) t)
  else if decide (right_of t z = nil t) then
    let x := left_of t z in
    Some (x, y_original_color, rb_transplant z (left_of t z) t)
  else
    y ← minimum fuel t (right_of t z);
    let y_original_color := color_of t y in
    let x := right_of t y in
    let t :=
      if decide (parent_of t y = z) then set_parent x y t
      else
        let t := rb_transplant y (right_of t y) t in
        let t := set_right y (right_of t z) t in
        set_parent (right_of t y) y t in
    let t := rb_transplant z y t in
    let t := set_left y (left_of t z) t in
    let t := set_parent (left_of t y) y t in
    let t := set_color y (color_of t z) t in
    Some (x, y_original_color, t).

Definition delete_node_helper (fuel : nat) (z : ref) (t : RedBlackTree)
  : option RedBlackTree :=
  '(x, y_original_color, t) ← delete_splice fuel z t;
  if decide (y_original_color = 0) then fix_delete fuel x t else Some t.

Definition delete_node (fuel : nat) (k : Z) (t : RedBlackTree)
  : option (completion * RedBlackTree) :=
  z ← find fuel t k;
  if decide (z = nil t) then
    let t := print "Key is not in the tree" t in
    Some (ReturnNone, t)
  else
    t ← delete_node_helper fuel z t;
    Some (ReturnNone, t).

(** ** Sequences of operations *)

Inductive op := Insert (k : Z) | Delete (k : Z).

Definition apply_op (fuel : nat) (o : op) (t : RedBlackTree) : option RedBlackTree :=
  match o with
  | Insert k => snd <$> insert fuel k t
  | Delete k => snd <$> delete_node fuel k t
  end.

Fixpoint run (fuel : nat) (ops : list op) (t : RedBlackTree) : option RedBlackTree :=
  match ops with
  | [] => Some t
  | o :: ops => t ← apply_op fuel o t; run fuel ops t
  end.

(** ** Vocabulary of the specification *)

(** The binary tree a heap stores below a reference: sentinel links are
    leaves, any other node carries its key and its colour. *)
Inductive tree := Leaf | T (l : tree) (k : Z) (c : Z) (r : tree).

#[global] Instance tree_eq_dec : EqDecision tree.
Proof. solve_decision. Defined.

(** [shape t n tr]: following [left] and [right] from [n] through the
    objects of the heap of [t] spells out exactly [tr]. *)
Inductive shape (t : RedBlackTree) : ref → tree → Prop :=
| shape_leaf : shape t (nil t) Leaf
| shape_node n l r :
    n ≠ nil t →
    (n < length (heap t))%nat →
    shape t (left_of t n) l →
    shape t (right_of t n) r →
    shape t n (T l (key_of t n) (color_of t n) r).

(** The executable reading of [shape]. *)
Fixpoint tree_of (fuel : nat) (t : RedBlackTree) (n : ref) : option tree :=
  match fuel with
  | O => None
  | S fuel =>
      if decide (n = nil t) then Some Leaf
      else if decide (n < length (heap t))%nat then
        l ← tree_of fuel t (left_of t n);
        r ← tree_of fuel t (right_of t n);
        Some (T l (key_of t n) (color_of t n) r)
      else None
  end.

(** The number of nodes on the longest downward path of a tree. *)
Fixpoint depth (tr : tree) : nat :=
  match tr with
  | Leaf => O
  | T l _ _ r => S (Nat.max (depth l) (depth r))
  end.

(** In-order traversal. *)
Fixpoint inorder (tr : tree) : list Z :=
  match tr with
  | Leaf => []
  | T l k _ r => inorder l ++ k :: inorder r
  end.

Definition tree_color (tr : tree) : Z :=
  match tr with Leaf => BLACK | T _ _ c _ => c end.

(** Property 1: every node is red or black. *)
Fixpoint colors_ok (tr : tree) : Prop :=
  match tr with
  | Leaf => True
  | T l _ c r => (c = RED ∨ c = BLACK) ∧ colors_ok l ∧ colors_ok r
  end.

(** Property 3: a red node has two black children. *)
Fixpoint red_ok (tr : tree) : Prop :=
  match tr with
  | Leaf => True
  | T l _ c r =>
      (c = RED → tree_color l = BLACK ∧ tree_color r = BLACK) ∧ red_ok l ∧ red_ok r
  end.

(** The number of black nodes on each path from the top of [tr] down to a
    leaf, one entry per path, the leaf itself not counted. *)
Fixpoint path_blacks (tr : tree) : list nat :=
  match tr with
  | Leaf => [0%nat]
  | T l _ c r =>
      (λ n, if decide (c = BLACK) then S n else n) <$> (path_blacks l ++ path_blacks r)
  end.

(** Property 4: below every node, all paths to a leaf count the same
    number of black nodes. *)
Fixpoint black_ok (tr : tree) : Prop :=
  match tr with
  | Leaf => True
  | T l _ _ r =>
      (∀ a b, a ∈ path_blacks tr → b ∈ path_blacks tr → a = b) ∧ black_ok l ∧ black_ok r
  end.

(** Property 5: binary search tree, strictly. *)
Fixpoint bst (tr : tree) : Prop :=
  match tr with
  | Leaf => True
  | T l k _ r =>
      (∀ a, a ∈ inorder l → a < k) ∧ (∀ b, b ∈ inorder r → k < b) ∧ bst l ∧ bst r
  end.

(** The five invariants of the data model, for the tree hanging from the
    root of [t]. *)
Definition rb_invariants (t : RedBlackTree) : Prop :=
  ∃ tr, shape t (root t) tr
        ∧ colors_ok tr
        ∧ color_of t (nil t) = BLACK ∧ color_of t (parent_of t (root t)) = BLACK
        ∧ red_ok tr
        ∧ black_ok tr
        ∧ bst tr.

(** The keys a sequence of operations leaves in the set: inserted and not
    deleted afterwards. *)
Fixpoint present (ops : list op) (acc : list Z) : list Z :=
  match ops with
  | [] => acc
  | Insert k :: ops => present ops (if decide (k ∈ acc) then acc else k :: acc)
  | Delete k :: ops => present ops (filter (λ a, a ≠ k) acc)
  end.

(** Insertion into a sorted list without duplicates, to spell out the
    sorted sequence of the keys present. *)
Fixpoint sorted_insert (k : Z) (l : list Z) : list Z :=
  match l with
  | [] => [k]
  | a :: l' =>
      if decide (k < a) then k :: l
      else if decide (k = a) then l
      else a :: sorted_insert k l'
  end.

Definition sorted_keys (l : list Z) : list Z := foldr sorted_insert [] l.

(** The lengths (in edges) of the downward paths from [n] to a sentinel
    leaf. *)
Inductive down_path (t : RedBlackTree) : ref → Z → Prop :=
| down_here : down_path t (nil t) 0
| down_left n d : n ≠ nil t → down_path t (left_of t n) d → down_path t n (d + 1)
| down_right n d : n ≠ nil t → down_path t (right_of t n) d → down_path t n (d + 1).

(** ** The run of the program's own script *)

(** The eight [rbt.insert] calls at the end of the source file. *)
Definition golden_inserts : list op :=
  [Insert 8; Insert 18; Insert 5; Insert 15; Insert 17; Insert 25; Insert 40; Insert 80].

(** The first diagram of the output recorded in the source file. *)
Definition golden_tree : tree :=
  T (T (T Leaf 5 BLACK Leaf) 8 RED (T Leaf 15 BLACK Leaf))
    17 BLACK
    (T (T Leaf 18 BLACK Leaf) 25 RED (T Leaf 40 BLACK (T Leaf 80 RED Leaf))).

(** The second diagram, after [rbt.delete_node(25)]. *)
Definition golden_tree_deleted : tree :=
  T (T (T Leaf 5 BLACK Leaf) 8 RED (T Leaf 15 BLACK Leaf))
    17 BLACK
    (T (T Leaf 18 BLACK Leaf) 40 RED (T Leaf 80 BLACK Leaf)).

(** ** Operation sequences on which the deletion fix-up goes wrong *)

(** Deleting a black leaf: [fix_delete] is called on the sentinel. *)
Definition black_leaf_ops : list op :=
  [Insert 1; Insert 2; Insert 3; Insert 4; Delete 1].

(** A chain of three black nodes is built (the first ten operations),
    then its middle node is deleted. *)
Definition black_chain_ops : list op :=
  [Insert 4; Insert 3; Insert 6; Insert 5; Delete 3; Insert 0; Insert 2;
   Insert 3; Delete 3; Delete 0].

Definition black_chain : tree :=
  T Leaf 2 BLACK (T Leaf 4 BLACK (T (T Leaf 5 RED Leaf) 6 BLACK Leaf)).

Definition lost_keys_ops : list op := black_chain_ops ++ [Delete 4].

(** A red node with one black child on a black chain, then the deletion
    of the root: the sibling of the doubly black node becomes the
    sentinel, which is painted red and stays red. *)
Definition red_sibling_ops : list op :=
  [Insert 3; Insert 2; Insert 4; Insert 5; Delete 2; Insert 2; Insert 1;
   Insert 0; Delete 3; Delete 0; Insert 0].

Definition red_sibling_tree : tree :=
  T (T Leaf 0 RED Leaf) 1 BLACK (T Leaf 2 BLACK (T Leaf 4 BLACK (T Leaf 5 RED Leaf))).

Definition red_sentinel_ops : list op := red_sibling_ops ++ [Delete 1].

(** The same situation one key apart; with the sentinel red, a second
    deletion rotates about the sentinel. *)
Definition sentinel_link_setup : list op :=
  [Insert 3; Insert 5; Insert 1; Insert 4; Delete 1; Insert 1; Insert 2;
   Insert 0; Delete 1; Delete 0; Insert 1; Delete 3].

Definition sentinel_link_tree : tree :=
  T Leaf 1 BLACK (T Leaf 2 BLACK (T (T Leaf 4 RED Leaf) 5 BLACK Leaf)).

Definition sentinel_link_ops : list op := sentinel_link_setup ++ [Delete 2].

(** The sentinel is left red by a deletion; a later insertion takes it
    for a red parent of the root and rotates about a node that an earlier
    deletion had unlinked, which links such nodes into the tree again with
    the parent links they had. *)
Definition stale_parent_setup : list op :=
  [Insert 7; Insert 1; Insert 6; Insert 0; Insert 5; Insert 4; Insert 8;
   Delete 7; Insert 3; Delete 6; Insert 7; Delete 1; Delete 0; Insert 2;
   Delete 2; Delete 3; Insert 3; Delete 4; Insert 1; Delete 8; Insert 0].

Definition stale_parent_before : tree :=
  T (T Leaf 0 RED Leaf) 1 BLACK
    (T Leaf 3 RED (T Leaf 5 BLACK (T Leaf 7 BLACK Leaf))).

Definition stale_parent_after : tree :=
  T (T (T (T Leaf 2 RED Leaf) 3 BLACK (T Leaf 5 BLACK (T Leaf 7 BLACK Leaf)))
       4 RED
       (T Leaf 7 BLACK Leaf))
    8 BLACK Leaf.

Definition stale_parent_ops : list op := stale_parent_setup ++ [Insert 2].

(** ** A small tree for examples: 2 (black) with the red children 1 and 3 *)

Definition tree_123 : RedBlackTree :=
  Eval vm_compute in default init (run 5 [Insert 1; Insert 2; Insert 3] init).

Definition shape_123 : tree := T (T Leaf 1 RED Leaf) 2 BLACK (T Leaf 3 RED Leaf).

(** ** Vocabulary for what holds in every state *)

(** The three links of a node are indices of objects of the heap. *)
Definition node_closed (len : nat) (n : Node) : Prop :=
  (parent n < len)%nat ∧ (left n < len)%nat ∧ (right n < len)%nat.

(** No reference of the tree object dangles: the sentinel, the root and
    the links of every node are objects of the heap. *)
Definition heap_closed (t : RedBlackTree) : Prop :=
  (nil t < length (heap t))%nat
  ∧ (root t < length (heap t))%nat
  ∧ Forall (node_closed (length (heap t))) (heap t).

(** Every object of the heap is red or black. *)
Definition colors_01 (t : RedBlackTree) : Prop :=
  Forall (λ n, color n = RED ∨ color n = BLACK) (heap t).

(** [t'] has the objects of [t], each with the key it had, and the same
    sentinel. *)
Definition same_keys (t t' : RedBlackTree) : Prop :=
  nil t' = nil t
  ∧ length (heap t') = length (heap t)
  ∧ ∀ x, key_of t' x = key_of t x.

(** A reference together with the state it belongs to. *)
Definition with_ref (V : ref → Prop) (I : RedBlackTree → Prop)
    (p : ref * RedBlackTree) : Prop :=
  V (fst p) ∧ I (snd p).

(** What holds of the result of a computation that may run out of
    fuel, when it has one. *)
Definition when_some {A} (P : A → Prop) (o : option A) : Prop :=
  ∀ a, o = Some a → P a.

(** [heap_closed], with the number of objects named. *)
Definition closed_at (len : nat) (t : RedBlackTree) : Prop :=
  length (heap t) = len
  ∧ (nil t < len)%nat ∧ (root t < len)%nat
  ∧ Forall (node_closed len) (heap t).

(** A property [I] of states, with the references [V] and the colours
    [C] that may be assigned in such states, which every assignment of
    the program keeps and every read respects. *)
Record write_closed (I : RedBlackTree → Prop) (V : ref → Prop) (C : Z → Prop)
    : Prop := {
  wc_I_parent : ∀ t x v, I t → V v → I (set_parent x v t);
  wc_I_left : ∀ t x v, I t → V v → I (set_left x v t);
  wc_I_right : ∀ t x v, I t → V v → I (set_right x v t);
  wc_I_color : ∀ t x c, I t → C c → I (set_color x c t);
  wc_I_root : ∀ t v, I t → V v → I (set_root v t);
  wc_I_print : ∀ t line, I t → I (print line t);
  wc_V_parent : ∀ t x, I t → V (parent_of t x);
  wc_V_left : ∀ t x, I t → V (left_of t x);
  wc_V_right : ∀ t x, I t → V (right_of t x);
  wc_V_nil : ∀ t, I t → V (nil t);
  wc_V_root : ∀ t, I t → V (root t);
  wc_C_0 : C 0;
  wc_C_1 : C 1;
  wc_C_read : ∀ t x, I t → C (color_of t x)
}.

(** ** Trees of nodes with their parent links *)

(** The nodes below a node, by reference. *)
Inductive rtree := RLeaf | RNode (l : rtree) (n : ref) (r : rtree).

(** The nodes in in-order sequence. *)
Fixpoint refs (rt : rtree) : list ref :=
  match rt with
  | RLeaf => []
  | RNode l n r => refs l ++ n :: refs r
  end.

Fixpoint rdepth (rt : rtree) : nat :=
  match rt with
  | RLeaf => O
  | RNode l _ r => S (Nat.max (rdepth l) (rdepth r))
  end.

(** [linked t p n rt]: following [left] and [right] from [n] spells out
    [rt], and the [parent] link of every node of [rt] refers to the node
    above it, that of [n] to [p]. *)
Inductive linked (t : RedBlackTree) : ref → ref → rtree → Prop :=
| linked_leaf p : linked t p (nil t) RLeaf
| linked_node p n l r :
    n ≠ nil t →
    (n < length (heap t))%nat →
    parent_of t n = p →
    linked t n (left_of t n) l →
    linked t n (right_of t n) r →
    linked t p n (RNode l n r).

(** The keys and colours the heap gives to the nodes of [rt]. *)
Fixpoint labels (t : RedBlackTree) (rt : rtree) : tree :=
  match rt with
  | RLeaf => Leaf
  | RNode l n r => T (labels t l) (key_of t n) (color_of t n) (labels t r)
  end.

(** The tree object is well formed: the root hangs from the sentinel, the
    parent links agree with the child links, and no node occurs twice. *)
Definition well_linked (t : RedBlackTree) (rt : rtree) : Prop :=
  linked t (nil t) (root t) rt ∧ NoDup (refs rt).

(** The executable reading of [linked]. *)
Fixpoint rtree_of (fuel : nat) (t : RedBlackTree) (p n : ref) : option rtree :=
  match fuel with
  | O => None
  | S fuel =>
      if decide (n = nil t) then Some RLeaf
      else if decide ((n < length (heap t))%nat ∧ parent_of t n = p) then
        l ← rtree_of fuel t n (left_of t n);
        r ← rtree_of fuel t n (right_of t n);
        Some (RNode l n r)
      else None
  end.

(** The nodes of [tree_123]: the keys 1, 2, 3 are carried by the objects
    1, 2, 3. *)
Definition rtree_123 : rtree :=
  RNode (RNode RLeaf 1%nat RLeaf) 2%nat (RNode RLeaf 3%nat RLeaf).

(** ** Links as functions, and trees with a hole *)

(** The links of a tree object, read as functions of the reference. *)
Definition links (t : RedBlackTree) (n : ref) (len : nat) (rt : ref)
    (L R P : ref → ref) : Prop :=
  nil t = n ∧ length (heap t) = len ∧ root t = rt
  ∧ ∀ m, left_of t m = L m ∧ right_of t m = R m ∧ parent_of t m = P m.

(** The part of a tree around one of its subtrees, read from the subtree
    upwards: [PLeft up n r] says that the subtree is the left child of [n],
    that [r] is the right subtree of [n], and that [up] is what lies around
    [n]. *)
Inductive path :=
| PTop
| PLeft (up : path) (n : ref) (r : rtree)
| PRight (l : rtree) (n : ref) (up : path).

(** The tree with [s] in the hole. *)
Fixpoint plug (s : rtree) (c : path) : rtree :=
  match c with
  | PTop => s
  | PLeft up n r => plug (RNode s n r) up
  | PRight l n up => plug (RNode l n s) up
  end.

(** The nodes that come before and after the hole in in-order sequence. *)
Fixpoint before (c : path) : list ref :=
  match c with
  | PTop => []
  | PLeft up _ _ => before up
  | PRight l n up => before up ++ refs l ++ [n]
  end.

Fixpoint after (c : path) : list ref :=
  match c with
  | PTop => []
  | PLeft up n r => n :: refs r ++ after up
  | PRight _ _ up => after up
  end.

Definition path_refs (c : path) : list ref := before c ++ after c.

(** The node above the hole; [p0] above the whole tree. *)
Definition hparent (p0 : ref) (c : path) : ref :=
  match c with
  | PTop => p0
  | PLeft _ n _ | PRight _ n _ => n
  end.

(** [linked_path t p0 n0 c h]: the heap spells out the surroundings [c] of
    a tree with root [n0] below [p0], and the link into the hole holds
    [h]. *)
Inductive linked_path (t : RedBlackTree) (p0 n0 : ref) : path → ref → Prop :=
| lp_top : linked_path t p0 n0 PTop n0
| lp_left up n r h :
    n ≠ nil t → (n < length (heap t))%nat →
    parent_of t n = hparent p0 up →
    left_of t n = h →
    linked t n (right_of t n) r →
    linked_path t p0 n0 up n →
    linked_path t p0 n0 (PLeft up n r) h
| lp_right l n up h :
    n ≠ nil t → (n < length (heap t))%nat →
    parent_of t n = hparent p0 up →
    linked t n (left_of t n) l →
    right_of t n = h →
    linked_path t p0 n0 up n →
    linked_path t p0 n0 (PRight l n up) h.

(** The link from the node above the hole to the root of the hole. *)
Definition hole_link (t : RedBlackTree) (c : path) (h : ref) : Prop :=
  match c with
  | PTop => True
  | PLeft _ n _ => left_of t n = h
  | PRight _ n _ => right_of t n = h
  end.

(** The root of the tree when the hole holds a subtree with root [h]. *)
Definition top_root (c : path) (h n0 : ref) : ref :=
  match c with PTop => h | _ => n0 end.

(** * Fuel *)

(** More fuel never changes a result. *)

Lemma minimum_mono fuel fuel' t n r :
  minimum fuel t n = Some r → (fuel ≤ fuel')%nat → minimum fuel' t n = Some r.
Proof.
  revert fuel' n; induction fuel as [|fuel IH]; intros [|fuel'] n; simpl; try done; try lia.
  intros H Hle. case_decide; [apply IH; [done | lia] | done].
Qed.

Lemma maximum_mono fuel fuel' t n r :
  maximum fuel t n = Some r → (fuel ≤ fuel')%nat → maximum fuel' t n = Some r.
Proof.
  revert fuel' n; induction fuel as [|fuel IH]; intros [|fuel'] n; simpl; try done; try lia.
  intros H Hle. case_decide; [apply IH; [done | lia] | done].
Qed.

Lemma successor_up_mono fuel fuel' t x y r :
  successor_up fuel t x y = Some r → (fuel ≤ fuel')%nat →
  successor_up fuel' t x y = Some r.
Proof.
  revert fuel' x y; induction fuel as [|fuel IH]; intros [|fuel'] x y; simpl; try done; try lia.
  intros H Hle. case_decide; [apply IH; [done | lia] | done].
Qed.

Lemma predecessor_up_mono fuel fuel' t x y r :
  predecessor_up fuel t x y = Some r → (fuel ≤ fuel')%nat →
  predecessor_up fuel' t x y = Some r.
Proof.
  revert fuel' x y; induction fuel as [|fuel IH]; intros [|fuel'] x y; simpl; try done; try lia.
  intros H Hle. case_decide; [apply IH; [done | lia] | done].
Qed.

Lemma successor_mono fuel fuel' t x r :
  successor fuel t x = Some r → (fuel ≤ fuel')%nat → successor fuel' t x = Some r.
Proof.
  unfold successor; case_decide; eauto using minimum_mono, successor_up_mono.
Qed.

Lemma predecessor_mono fuel fuel' t x r :
  predecessor fuel t x = Some r → (fuel ≤ fuel')%nat → predecessor fuel' t x = Some r.
Proof.
  unfold predecessor; case_decide; eauto using maximum_mono, predecessor_up_mono.
Qed.

Lemma find_helper_mono fuel fuel' t k n r :
  find_helper fuel t k n = Some r → (fuel ≤ fuel')%nat →
  find_helper fuel' t k n = Some r.
Proof.
  revert fuel' n; induction fuel as [|fuel IH]; intros [|fuel'] n; simpl; try done; try lia.
  intros H Hle. repeat case_decide; try done; apply IH; (done || lia).
Qed.

Lemma find_mono fuel fuel' t k r :
  find fuel t k = Some r → (fuel ≤ fuel')%nat → find fuel' t k = Some r.
Proof. unfold find; case_decide; eauto using find_helper_mono. Qed.

Lemma height_mono fuel fuel' t n h :
  height fuel t n = Some h → (fuel ≤ fuel')%nat → height fuel' t n = Some h.
Proof.
  revert fuel' n h; induction fuel as [|fuel IH]; intros [|fuel'] n h; simpl; try done; try lia.
  intros H Hle. case_decide; [done|].
  destruct (height fuel t (left_of t n)) as [hl|] eqn:El; [|done].
  destruct (height fuel t (right_of t n)) as [hr|] eqn:Er; [|done].
  simpl in H.
  rewrite (IH fuel' _ _ El), (IH fuel' _ _ Er) by lia. done.
Qed.

Lemma tree_of_mono fuel fuel' t n tr :
  tree_of fuel t n = Some tr → (fuel ≤ fuel')%nat → tree_of fuel' t n = Some tr.
Proof.
  revert fuel' n tr; induction fuel as [|fuel IH]; intros [|fuel'] n tr; simpl; try done; try lia.
  intros H Hle. case_decide; [done|]. case_decide; [|done].
  destruct (tree_of fuel t (left_of t n)) as [l|] eqn:El; [|done].
  destruct (tree_of fuel t (right_of t n)) as [r|] eqn:Er; [|done].
  simpl in H.
  rewrite (IH fuel' _ _ El), (IH fuel' _ _ Er) by lia. done.
Qed.

Lemma insert_descend_mono fuel fuel' t k y x r :
  insert_descend fuel t k y x = Some r → (fuel ≤ fuel')%nat →
  insert_descend fuel' t k y x = Some r.
Proof.
  revert fuel' y x; induction fuel as [|fuel IH]; intros [|fuel'] y x; simpl; try done; try lia.
  intros H Hle. repeat case_decide; try done; apply IH; (done || lia).
Qed.

Lemma insert_fixup_loop_mono fuel fuel' z t r :
  insert_fixup_loop fuel z t = Some r → (fuel ≤ fuel')%nat →
  insert_fixup_loop fuel' z t = Some r.
Proof.
  revert fuel' z t; induction fuel as [|fuel IH]; intros [|fuel'] z t; simpl; try done; try lia.
  intros H Hle. case_decide; [|done].
  destruct (insert_fixup_body z t) as [z' t']. apply IH; (done || lia).
Qed.

Lemma insert_fixup_mono fuel fuel' z t r :
  insert_fixup fuel z t = Some r → (fuel ≤ fuel')%nat →
  insert_fixup fuel' z t = Some r.
Proof.
  unfold insert_fixup. intros H Hle.
  destruct (insert_fixup_loop fuel z t) as [[z' t']|] eqn:E; [|done].
  by rewrite (insert_fixup_loop_mono _ fuel' _ _ _ E Hle).
Qed.

Lemma fix_delete_loop_mono fuel fuel' x t r :
  fix_delete_loop fuel x t = Some r → (fuel ≤ fuel')%nat →
  fix_delete_loop fuel' x t = Some r.
Proof.
  revert fuel' x t; induction fuel as [|fuel IH]; intros [|fuel'] x t; simpl; try done; try lia.
  intros H Hle. destruct (fix_delete_cond x t); [|done].
  destruct (fix_delete_body x t) as [x' t']. apply IH; (done || lia).
Qed.

Lemma fix_delete_mono fuel fuel' x t r :
  fix_delete fuel x t = Some r → (fuel ≤ fuel')%nat →
  fix_delete fuel' x t = Some r.
Proof.
  unfold fix_delete. intros H Hle.
  destruct (fix_delete_loop fuel x t) as [[x' t']|] eqn:E; [|done].
  by rewrite (fix_delete_loop_mono _ fuel' _ _ _ E Hle).
Qed.

Lemma delete_splice_mono fuel fuel' z t r :
  delete_splice fuel z t = Some r → (fuel ≤ fuel')%nat →
  delete_splice fuel' z t = Some r.
Proof.
  unfold delete_splice. intros H Hle. repeat case_decide; try done.
  destruct (minimum fuel t (right_of t z)) as [y|] eqn:E; [|done].
  by rewrite (minimum_mono _ fuel' _ _ _ E Hle).
Qed.

Lemma delete_node_helper_mono fuel fuel' z t r :
  delete_node_helper fuel z t = Some r → (fuel ≤ fuel')%nat →
  delete_node_helper fuel' z t = Some r.
Proof.
  unfold delete_node_helper. intros H Hle.
  destruct (delete_splice fuel z t) as [[[x c] t']|] eqn:E; [|done].
  rewrite (delete_splice_mono _ fuel' _ _ _ E Hle). simpl in *.
  case_decide; eauto using fix_delete_mono.
Qed.

Lemma insert_mono fuel fuel' k t r :
  insert fuel k t = Some r → (fuel ≤ fuel')%nat → insert fuel' k t = Some r.
Proof.
  unfold insert. intros H Hle.
  destruct (new_node k t) as [z t0].
  destruct (insert_descend fuel t0 (key_of t0 z) (nil t0) (root t0)) as [d|] eqn:E; [|done].
  rewrite (insert_descend_mono _ fuel' _ _ _ _ _ E Hle). simpl in *.
  destruct d as [|y]; [done|]. case_decide; [done|].
  match type of H with
  | context [insert_fixup fuel ?a ?b] =>
      destruct (insert_fixup fuel a b) as [t1|] eqn:E1; [|done];
      rewrite (insert_fixup_mono _ fuel' _ _ _ E1 Hle)
  end. done.
Qed.

Lemma delete_node_mono fuel fuel' k t r :
  delete_node fuel k t = Some r → (fuel ≤ fuel')%nat → delete_node fuel' k t = Some r.
Proof.
  unfold delete_node. intros H Hle.
  destruct (find fuel t k) as [z|] eqn:E; [|done].
  rewrite (find_mono _ fuel' _ _ _ E Hle). simpl in *.
  case_decide; [done|].
  destruct (delete_node_helper fuel z t) as [t1|] eqn:E1; [|done].
  by rewrite (delete_node_helper_mono _ fuel' _ _ _ E1 Hle).
Qed.

Lemma apply_op_mono fuel fuel' o t r :
  apply_op fuel o t = Some r → (fuel ≤ fuel')%nat → apply_op fuel' o t = Some r.
Proof.
  intros H Hle. destruct o as [k|k]; simpl in *.
  - destruct (insert fuel k t) as [p|] eqn:E; [|done].
    by rewrite (insert_mono _ fuel' _ _ _ E Hle).
  - destruct (delete_node fuel k t) as [p|] eqn:E; [|done].
    by rewrite (delete_node_mono _ fuel' _ _ _ E Hle).
Qed.

Lemma run_mono fuel fuel' ops t r :
  run fuel ops t = Some r → (fuel ≤ fuel')%nat → run fuel' ops t = Some r.
Proof.
  revert t; induction ops as [|o ops IH]; intros t; simpl; [done|].
  intros H Hle. destruct (apply_op fuel o t) as [t1|] eqn:E; [|done].
  rewrite (apply_op_mono _ fuel' _ _ _ E Hle). simpl in *. eauto.
Qed.

(** * The stored tree *)

Lemma tree_of_shape fuel t n tr : tree_of fuel t n = Some tr → shape t n tr.
Proof.
  revert n tr; induction fuel as [|fuel IH]; intros n tr; simpl; [done|].
  case_decide as Hn; [intros [= <-]; subst n; constructor|].
  case_decide as Hlt; [|done].
  destruct (tree_of fuel t (left_of t n)) as [l|] eqn:El; [|done].
  destruct (tree_of fuel t (right_of t n)) as [r|] eqn:Er; [|done].
  intros [= <-]. constructor; auto.
Qed.

Lemma shape_tree_of t n tr fuel :
  shape t n tr → tree_of (S (depth tr) + fuel) t n = Some tr.
Proof.
  intros H; revert fuel; induction H as [|n l r Hn Hlt Hl IHl Hr IHr]; intros fuel.
  - simpl. by rewrite decide_True.
  - cbn [depth]. change (S (S ?a) + fuel)%nat with (S (S a + fuel)).
    cbn [tree_of]. rewrite decide_False, decide_True by done.
    rewrite (tree_of_mono _ (S (Nat.max (depth l) (depth r)) + fuel) _ _ _ (IHl 0%nat)) by lia.
    rewrite (tree_of_mono _ (S (Nat.max (depth l) (depth r)) + fuel) _ _ _ (IHr 0%nat)) by lia.
    done.
Qed.

Lemma shape_inj t n tr1 tr2 : shape t n tr1 → shape t n tr2 → tr1 = tr2.
Proof.
  intros H; revert tr2; induction H as [|n l r Hn Hlt Hl IHl Hr IHr]; intros tr2 H2.
  - inversion H2; [done | congruence].
  - inversion H2 as [|n' l' r' Hn' Hlt' Hl' Hr']; subst; [congruence|].
    f_equal; auto.
Qed.

(** * The script of the source file *)

(** C3: the eight insertions of the script build the tree of the first
    recorded diagram; deleting 25 gives the second diagram, with the left
    subtree as before; deleting the absent key 100 leaves every object,
    the root and the sentinel as they were. *)
Theorem golden_scenario (fuel : nat) :
  ∃ t1 t2 t3,
    run (5 + fuel) golden_inserts init = Some t1
    ∧ shape t1 (root t1) golden_tree
    ∧ apply_op (5 + fuel) (Delete 25) t1 = Some t2
    ∧ shape t2 (root t2) golden_tree_deleted
    ∧ apply_op (5 + fuel) (Delete 100) t2 = Some t3
    ∧ heap t3 = heap t2 ∧ root t3 = root t2 ∧ nil t3 = nil t2.
Proof.
  do 3 eexists. split; [|split; [|split; [|split; [|split]]]].
  - eapply (run_mono 5); [vm_compute; reflexivity | lia].
  - apply (tree_of_shape 10). vm_compute. reflexivity.
  - eapply (apply_op_mono 5); [vm_compute; reflexivity | lia].
  - apply (tree_of_shape 10). vm_compute. reflexivity.
  - eapply (apply_op_mono 5); [vm_compute; reflexivity | lia].
  - done.
Qed.

(** * Deleting a black leaf *)

(** C1: after [insert] of 1, 2, 3, 4 the five invariants hold; the
    following [delete_node(1)] removes a black leaf, [fix_delete] is
    entered with the sentinel and does nothing, and the tree it leaves has
    one black node on the path to the left of the root and two on the
    paths to its right. *)
Theorem delete_breaks_black_height (fuel : nat) :
  ∃ t0 t,
    run (5 + fuel) [Insert 1; Insert 2; Insert 3; Insert 4] init = Some t0
    ∧ rb_invariants t0
    ∧ apply_op (5 + fuel) (Delete 1) t0 = Some t
    ∧ run (5 + fuel) black_leaf_ops init = Some t
    ∧ shape t (root t) (T Leaf 2 BLACK (T Leaf 3 BLACK (T Leaf 4 RED Leaf)))
    ∧ ¬ rb_invariants t.
Proof.
  do 2 eexists. split; [|split; [|split; [|split; [|split]]]].
  - eapply (run_mono 5); [vm_compute; reflexivity | lia].
  - exists (T (T Leaf 1 BLACK Leaf) 2 BLACK (T Leaf 3 BLACK (T Leaf 4 RED Leaf))).
    split; [apply (tree_of_shape 10); vm_compute; reflexivity|].
    split; [simpl; unfold RED, BLACK; tauto|].
    split; [reflexivity|]. split; [reflexivity|].
    split; [simpl; unfold RED, BLACK; intuition congruence|].
    split.
    + simpl. repeat split; intros a b Ha Hb;
        repeat (apply elem_of_cons in Ha as [->|Ha]); try (by apply elem_of_nil in Ha);
        repeat (apply elem_of_cons in Hb as [->|Hb]); try (by apply elem_of_nil in Hb);
        reflexivity.
    + simpl. repeat split; intros a Ha;
        repeat (apply elem_of_cons in Ha as [->|Ha]); try (by apply elem_of_nil in Ha);
        lia.
  - eapply (apply_op_mono 5); [vm_compute; reflexivity | lia].
  - eapply (run_mono 5); [vm_compute; reflexivity | lia].
  - apply (tree_of_shape 10); vm_compute; reflexivity.
  - intros (tr & Hs & _ & _ & _ & _ & Hb & _).
    assert (Hs' : shape
      (mkTree [mkNode 0 2%nat 0%nat 0%nat 0; mkNode 1 2%nat 0%nat 0%nat 0;
               mkNode 2 0%nat 0%nat 3%nat 0; mkNode 3 2%nat 0%nat 4%nat 0;
               mkNode 4 3%nat 0%nat 0%nat 1] 0%nat 2%nat [])
      2%nat (T Leaf 2 BLACK (T Leaf 3 BLACK (T Leaf 4 RED Leaf))))
      by (apply (tree_of_shape 10); vm_compute; reflexivity).
    pose proof (shape_inj _ _ _ _ Hs Hs') as ->.
    destruct Hb as [Hb _]. specialize (Hb 1%nat 2%nat).
    discriminate Hb; vm_compute; [left | right; left].
Qed.

(** * The loop of [fix_delete] at the root *)

(** C2: after [black_leaf_ops] the root 2 has one child, the black node
    3.  [delete_node(2)] finds the root, splices it out, so that [x] is the
    new root, and calls [fix_delete(x)] because the removed colour is
    black.  The loop test [x != self.nil and x.color == 0] holds for this
    [x], which is the root: the body runs, takes the sentinel for the
    sibling of the root and paints it red; only the final [x.color = 0],
    by then applied to the sentinel, paints it black again. *)
Theorem fix_delete_body_runs_at_root (fuel : nat) :
  ∃ t z x t' t'',
    run (5 + fuel) black_leaf_ops init = Some t
    ∧ find (5 + fuel) t 2 = Some z ∧ z = root t ∧ z ≠ nil t
    ∧ delete_splice (5 + fuel) z t = Some (x, BLACK, t')
    ∧ x = root t' ∧ x ≠ nil t'
    ∧ fix_delete_cond x t' = true
    ∧ fix_delete_body x t' = (nil t', t'')
    ∧ color_of t'' (nil t'') = RED
    ∧ fix_delete (5 + fuel) x t' = Some (set_color (nil t'') BLACK t'').
Proof.
  do 5 eexists. split; [|split; [|split; [|split; [|split; [|split;
    [|split; [|split; [|split; [|split]]]]]]]]].
  - eapply (run_mono 5); [vm_compute; reflexivity | lia].
  - eapply (find_mono 5); [vm_compute; reflexivity | lia].
  - reflexivity.
  - vm_compute. lia.
  - eapply (delete_splice_mono 5); [vm_compute; reflexivity | lia].
  - reflexivity.
  - vm_compute. lia.
  - vm_compute. reflexivity.
  - vm_compute. reflexivity.
  - vm_compute. reflexivity.
  - eapply (fix_delete_mono 5); [vm_compute; reflexivity | lia].
Qed.

(** * Keys lost by a deletion *)

(** C5: [black_chain_ops] builds the chain 2, 4, 6 of black nodes, the
    sentinel being black with its links on itself.  [delete_node(4)] then
    sets the root to the sentinel.  The key 2 has been inserted and not
    deleted, yet [find(2)] returns the sentinel. *)
Theorem find_misses_present_key (fuel : nat) :
  ∃ t0 t,
    run (5 + fuel) black_chain_ops init = Some t0
    ∧ shape t0 (root t0) black_chain
    ∧ color_of t0 (nil t0) = BLACK
    ∧ left_of t0 (nil t0) = nil t0 ∧ right_of t0 (nil t0) = nil t0
    ∧ apply_op (5 + fuel) (Delete 4) t0 = Some t
    ∧ run (5 + fuel) lost_keys_ops init = Some t
    ∧ root t = nil t
    ∧ 2 ∈ present lost_keys_ops []
    ∧ find (5 + fuel) t 2 = Some (nil t).
Proof.
  do 2 eexists.
  split; [eapply (run_mono 5); [vm_compute; reflexivity | lia]|].
  split; [apply (tree_of_shape 10); vm_compute; reflexivity|].
  split; [reflexivity|]. split; [reflexivity|]. split; [reflexivity|].
  split; [eapply (apply_op_mono 5); [vm_compute; reflexivity | lia]|].
  split; [eapply (run_mono 5); [vm_compute; reflexivity | lia]|].
  split; [reflexivity|].
  split; [vm_compute; apply list_elem_of_In; simpl; tauto|].
  eapply (find_mono 5); [vm_compute; reflexivity | lia].
Qed.

(** C6: after [lost_keys_ops] the keys present are 2, 5 and 6, and the
    tree hanging from the root is empty, so its in-order traversal is
    empty too. *)
Theorem inorder_misses_present_keys (fuel : nat) :
  ∃ t tr,
    run (5 + fuel) lost_keys_ops init = Some t
    ∧ shape t (root t) tr
    ∧ inorder tr = []
    ∧ sorted_keys (present lost_keys_ops []) = [2; 5; 6].
Proof.
  do 2 eexists. split; [|split; [|split]].
  - eapply (run_mono 5); [vm_compute; reflexivity | lia].
  - apply (tree_of_shape 10); vm_compute; reflexivity.
  - reflexivity.
  - vm_compute. reflexivity.
Qed.

(** * The sentinel after a deletion *)

(** C9: after [red_sibling_ops] the sentinel is black and the root 1 has
    the red child 0 and the black chain 2, 4 on its right.
    [delete_node(1)] puts 2 in the place of 1 and calls [fix_delete] on
    the black node 4; the first case of the loop rotates the red sibling
    0 to the top, the new sibling is the sentinel, the second case paints
    it red and the loop ends on the red node 2.  The sentinel is red when
    [delete_node] returns. *)
Theorem sentinel_left_red (fuel : nat) :
  ∃ t0 t,
    run (5 + fuel) red_sibling_ops init = Some t0
    ∧ shape t0 (root t0) red_sibling_tree
    ∧ color_of t0 (nil t0) = BLACK
    ∧ apply_op (5 + fuel) (Delete 1) t0 = Some t
    ∧ run (5 + fuel) red_sentinel_ops init = Some t
    ∧ color_of t (nil t) = RED.
Proof.
  do 2 eexists.
  split; [eapply (run_mono 5); [vm_compute; reflexivity | lia]|].
  split; [apply (tree_of_shape 10); vm_compute; reflexivity|].
  split; [reflexivity|].
  split; [eapply (apply_op_mono 5); [vm_compute; reflexivity | lia]|].
  split; [eapply (run_mono 5); [vm_compute; reflexivity | lia]|].
  reflexivity.
Qed.

(** C10: after [sentinel_link_setup] the sentinel is red, its [left] and
    [right] links still on itself, and the tree is the black chain 1, 2,
    5.  [delete_node(2)] calls [fix_delete] on the black node 5, whose
    sibling is the red sentinel: the first case of the loop calls
    [right_rotate] on the root, whose left child is the sentinel, and the
    rotation assigns to the [right] link of the sentinel.  When
    [delete_node] returns, that link refers to the node with key 1; the
    root's parent is the sentinel because the root is the sentinel. *)
Theorem sentinel_right_link_written (fuel : nat) :
  ∃ t0 t,
    run (5 + fuel) sentinel_link_setup init = Some t0
    ∧ shape t0 (root t0) sentinel_link_tree
    ∧ color_of t0 (nil t0) = RED
    ∧ left_of t0 (nil t0) = nil t0 ∧ right_of t0 (nil t0) = nil t0
    ∧ apply_op (5 + fuel) (Delete 2) t0 = Some t
    ∧ run (5 + fuel) sentinel_link_ops init = Some t
    ∧ right_of t (nil t) ≠ nil t
    ∧ key_of t (right_of t (nil t)) = 1
    ∧ root t = nil t.
Proof.
  do 2 eexists.
  split; [eapply (run_mono 5); [vm_compute; reflexivity | lia]|].
  split; [apply (tree_of_shape 10); vm_compute; reflexivity|].
  split; [reflexivity|]. split; [reflexivity|]. split; [reflexivity|].
  split; [eapply (apply_op_mono 5); [vm_compute; reflexivity | lia]|].
  split; [eapply (run_mono 5); [vm_compute; reflexivity | lia]|].
  split; [vm_compute; lia|].
  split; reflexivity.
Qed.

(** * Walking off the ends of the tree *)

(** C7: after [stale_parent_setup] the sentinel is red and its [parent]
    link refers to a node that is no longer in the tree.  [insert(2)]
    recolours up to the root, finds the parent of the root red, and runs
    the loop of [insert_fixup] once more with the sentinel as parent and
    that node as grandparent.  In the tree it leaves, [minimum] of the
    root is the node with key 2; its parent, the node with key 3, has a
    [parent] link to the node with key 1, which is not in the tree and
    whose left child is another node.  [predecessor] of the minimum climbs
    to that node and returns it instead of the sentinel. *)
Theorem predecessor_of_minimum_is_a_node (fuel : nat) :
  ∃ t0 t mn p,
    run (6 + fuel) stale_parent_setup init = Some t0
    ∧ shape t0 (root t0) stale_parent_before
    ∧ color_of t0 (nil t0) = RED
    ∧ apply_op (6 + fuel) (Insert 2) t0 = Some t
    ∧ run (6 + fuel) stale_parent_ops init = Some t
    ∧ shape t (root t) stale_parent_after
    ∧ root t ≠ nil t
    ∧ minimum (6 + fuel) t (root t) = Some mn
    ∧ predecessor (6 + fuel) t mn = Some p
    ∧ p ≠ nil t
    ∧ key_of t mn = 2 ∧ key_of t p = 1.
Proof.
  do 4 eexists.
  split; [eapply (run_mono 6); [vm_compute; reflexivity | lia]|].
  split; [apply (tree_of_shape 10); vm_compute; reflexivity|].
  split; [reflexivity|].
  split; [eapply (apply_op_mono 6); [vm_compute; reflexivity | lia]|].
  split; [eapply (run_mono 6); [vm_compute; reflexivity | lia]|].
  split; [apply (tree_of_shape 10); vm_compute; reflexivity|].
  split; [vm_compute; lia|].
  split; [eapply (minimum_mono 6); [vm_compute; reflexivity | lia]|].
  split; [eapply (predecessor_mono 6); [vm_compute; reflexivity | lia]|].
  split; [vm_compute; lia|].
  split; reflexivity.
Qed.

(** * Height *)

Lemma height_sentinel fuel t : height (S fuel) t (nil t) = Some 0.
Proof. simpl. by rewrite decide_True. Qed.

Lemma down_path_sentinel t d : down_path t (nil t) d → d = 0.
Proof. inversion 1; congruence. Qed.

Lemma height_shape t n tr :
  shape t n tr →
  ∃ h, (∀ fuel, height (S (depth tr) + fuel) t n = Some h)
       ∧ down_path t n h
       ∧ ∀ d, down_path t n d → d ≤ h.
Proof.
  induction 1 as [|n l r Hn Hlt Hl (hl & Fl & Pl & Ml) Hr (hr & Fr & Pr & Mr)].
  - exists 0. split; [intros; apply height_sentinel|].
    split; [constructor|]. intros d Hd. apply down_path_sentinel in Hd. lia.
  - exists (Z.max hl hr + 1). split; [|split].
    + intros fuel. cbn [depth].
      change (S (S ?a) + fuel)%nat with (S (S a + fuel)).
      cbn [height]. rewrite decide_False by done.
      rewrite (height_mono _ (S (Nat.max (depth l) (depth r)) + fuel) _ _ _ (Fl 0%nat)) by lia.
      rewrite (height_mono _ (S (Nat.max (depth l) (depth r)) + fuel) _ _ _ (Fr 0%nat)) by lia.
      done.
    + destruct (Z.max_spec hl hr) as [[_ ->]|[_ ->]].
      * by apply down_right.
      * by apply down_left.
    + intros d Hd. inversion Hd as [|? d' _ Hd'|? d' _ Hd']; subst.
      * congruence.
      * apply Ml in Hd'. lia.
      * apply Mr in Hd'. lia.
Qed.

(** C8: for a node [n] under which the heap stores a tree, [height(n)]
    returns, and what it returns is the greatest number of edges on a
    downward path from [n] to a sentinel leaf; the height of the sentinel
    is 0. *)
Theorem height_is_longest_path t n tr :
  shape t n tr →
  (∀ fuel, height (S fuel) t (nil t) = Some 0)
  ∧ ∃ h, (∀ fuel, height (S (depth tr) + fuel) t n = Some h)
         ∧ down_path t n h
         ∧ ∀ d, down_path t n d → d ≤ h.
Proof.
  intros Hs. split; [intros; apply height_sentinel | by apply height_shape].
Qed.

(** * Duplicate insertion and deletion of an absent key *)

Section fresh_node.
Variables (k : Z) (t : RedBlackTree).

Let t0 := snd (new_node k t).

Lemma new_node_old x : (x < length (heap t))%nat → node t0 x = node t x.
Proof.
  intros Hx. unfold node, t0; simpl. by rewrite lookup_app_l.
Qed.

Lemma new_node_key : key_of t0 (fst (new_node k t)) = k.
Proof.
  unfold key_of, node, t0; simpl.
  rewrite lookup_app_r by lia. by rewrite Nat.sub_diag.
Qed.

Lemma shape_new_node n tr : shape t n tr → shape t0 n tr.
Proof.
  induction 1 as [|n l r Hn Hlt Hl IHl Hr IHr].
  - apply (shape_leaf t0).
  - pose proof (new_node_old n Hlt) as E.
    replace (key_of t n) with (key_of t0 n) by (unfold key_of; by rewrite E).
    replace (color_of t n) with (color_of t0 n) by (unfold color_of; by rewrite E).
    apply shape_node.
    + done.
    + unfold t0; simpl. rewrite length_app. lia.
    + unfold left_of. by rewrite E.
    + unfold right_of. by rewrite E.
Qed.
End fresh_node.

Lemma insert_descend_found t x tr k :
  shape t x tr → bst tr → k ∈ inorder tr →
  ∀ fuel y, insert_descend (S (depth tr) + fuel) t k y x = Some KeyExists.
Proof.
  induction 1 as [|n l r Hn Hlt Hl IHl Hr IHr]; intros Hb Hk fuel y.
  - by apply elem_of_nil in Hk.
  - destruct Hb as (Hlo & Hhi & Hbl & Hbr).
    cbn [depth]. change (S (S ?a) + fuel)%nat with (S (S a + fuel)).
    cbn [insert_descend]. rewrite decide_True by done.
    cbn [inorder] in Hk. apply elem_of_app in Hk as [Hk|Hk].
    + specialize (Hlo _ Hk). rewrite decide_True by done.
      eapply insert_descend_mono; [apply (IHl Hbl Hk 0%nat) | lia].
    + apply elem_of_cons in Hk as [->|Hk].
      * rewrite !decide_False by lia. done.
      * specialize (Hhi _ Hk). rewrite decide_False, decide_True by lia.
        eapply insert_descend_mono; [apply (IHr Hbr Hk 0%nat) | lia].
Qed.

Lemma find_helper_absent t n tr k :
  shape t n tr → bst tr → k ∉ inorder tr →
  ∀ fuel, find_helper (S (depth tr) + fuel) t k n = Some (nil t).
Proof.
  induction 1 as [|n l r Hn Hlt Hl IHl Hr IHr]; intros Hb Hk fuel.
  - simpl. rewrite decide_True by (by left). done.
  - destruct Hb as (Hlo & Hhi & Hbl & Hbr).
    cbn [depth]. change (S (S ?a) + fuel)%nat with (S (S a + fuel)).
    cbn [find_helper]. cbn [inorder] in Hk.
    rewrite not_elem_of_app, not_elem_of_cons in Hk. destruct Hk as (Hkl & Hkn & Hkr).
    rewrite decide_False by (intros [?|?]; congruence).
    case_decide.
    + eapply find_helper_mono; [apply (IHl Hbl Hkl 0%nat) | lia].
    + eapply find_helper_mono; [apply (IHr Hbr Hkr 0%nat) | lia].
Qed.

Lemma shape_print line t n tr : shape t n tr → shape (print line t) n tr.
Proof.
  induction 1 as [|n l r Hn Hlt Hl IHl Hr IHr].
  - apply (shape_leaf (print line t)).
  - apply (shape_node (print line t)); auto.
Qed.

(** C4, as the code has it: on a heap storing a binary search tree,
    [insert(k)] for a key of the tree and [delete_node(k)] for a key not
    in the tree return, leave the root, the sentinel and every object as
    they were ([insert] has constructed one node, which nothing refers
    to), and print one line.  Both calls return [None]; nothing is
    raised. *)
Theorem duplicate_insert_and_absent_delete_keep_tree t tr k :
  shape t (root t) tr → bst tr →
  (k ∈ inorder tr →
   ∀ fuel, ∃ t',
     insert (S (depth tr) + fuel) k t = Some (ReturnNone, t')
     ∧ root t' = root t ∧ nil t' = nil t
     ∧ heap t' = heap t ++ [mkNode k (nil t) (nil t) (nil t) RED]
     ∧ shape t' (root t') tr
     ∧ stdout t' = stdout t ++ ["key " +:+ pretty k +:+ " already exists in the tree"])
  ∧ (k ∉ inorder tr →
     ∀ fuel, ∃ t',
       delete_node (S (depth tr) + fuel) k t = Some (ReturnNone, t')
       ∧ root t' = root t ∧ nil t' = nil t
       ∧ heap t' = heap t
       ∧ shape t' (root t') tr
       ∧ stdout t' = stdout t ++ ["Key is not in the tree"]).
Proof.
  intros Hs Hb. split; intros Hk fuel.
  - exists (print ("key " +:+ pretty k +:+ " already exists in the tree")
                  (snd (new_node k t))).
    split; [|split; [|split; [|split; [|split]]]]; try reflexivity.
    + pose proof (new_node_key k t) as Hz.
      pose proof (insert_descend_found _ _ _ k (shape_new_node k t _ _ Hs) Hb Hk) as Hd.
      unfold insert. unfold new_node in *. cbv beta iota. cbn [fst snd] in Hz, Hd.
      rewrite Hz. cbn [root nil]. rewrite Hd. reflexivity.
    + apply shape_print. exact (shape_new_node k t _ _ Hs).
  - exists (print "Key is not in the tree" t).
    split; [|split; [|split; [|split; [|split]]]]; try reflexivity.
    + unfold delete_node, find. case_decide as Hr.
      * simpl. rewrite decide_True by done. done.
      * rewrite (find_helper_absent _ _ _ _ Hs Hb Hk). simpl.
        rewrite decide_True by done. done.
    + by apply shape_print.
Qed.

Lemma tree_123_run fuel : run (5 + fuel) [Insert 1; Insert 2; Insert 3] init = Some tree_123.
Proof. eapply (run_mono 5); [vm_compute; reflexivity | lia]. Qed.

Lemma tree_123_shape : shape tree_123 (root tree_123) shape_123.
Proof. apply (tree_of_shape 5). vm_compute. reflexivity. Defined.

Lemma shape_123_bst : bst shape_123.
Proof.
  simpl. repeat split; intros a Ha;
    repeat (apply elem_of_cons in Ha as [->|Ha]); try (by apply elem_of_nil in Ha); lia.
Defined.

Lemma duplicate_insert_and_absent_delete_keep_tree_witness :
  (∀ fuel, ∃ t',
     insert (S (depth shape_123) + fuel) 3 tree_123 = Some (ReturnNone, t')
     ∧ root t' = root tree_123 ∧ nil t' = nil tree_123
     ∧ heap t' = heap tree_123
                 ++ [mkNode 3 (nil tree_123) (nil tree_123) (nil tree_123) RED]
     ∧ shape t' (root t') shape_123
     ∧ stdout t' = stdout tree_123 ++ ["key " +:+ pretty 3 +:+ " already exists in the tree"])
  ∧ (∀ fuel, ∃ t',
       delete_node (S (depth shape_123) + fuel) 7 tree_123 = Some (ReturnNone, t')
       ∧ root t' = root tree_123 ∧ nil t' = nil tree_123
       ∧ heap t' = heap tree_123
       ∧ shape t' (root t') shape_123
       ∧ stdout t' = stdout tree_123 ++ ["Key is not in the tree"]).
Proof.
  split.
  - apply (duplicate_insert_and_absent_delete_keep_tree
             tree_123 shape_123 3 tree_123_shape shape_123_bst).
    simpl. apply list_elem_of_In. simpl. tauto.
  - apply (duplicate_insert_and_absent_delete_keep_tree
             tree_123 shape_123 7 tree_123_shape shape_123_bst).
    simpl. intros H. apply list_elem_of_In in H. simpl in H.
    repeat (destruct H as [H|H]; [discriminate H|]). exact H.
Defined.

(** C4, the part that fails: inserting 3 into the tree holding 1, 2, 3 and
    deleting 7 from it both return [None], as the successful calls
    [insert(7)] and [delete_node(3)] do; neither [DuplicateKeyError] nor
    [KeyNotFoundError] reaches the caller. *)
Lemma duplicate_and_absent_return_none :
  fst <$> insert 5 3 tree_123 = Some ReturnNone
  ∧ fst <$> insert 5 7 tree_123 = Some ReturnNone
  ∧ fst <$> insert 5 3 tree_123 ≠ Some (Raise DuplicateKeyError)
  ∧ fst <$> delete_node 5 7 tree_123 = Some ReturnNone
  ∧ fst <$> delete_node 5 3 tree_123 = Some ReturnNone
  ∧ fst <$> delete_node 5 7 tree_123 ≠ Some (Raise KeyNotFoundError).
Proof. vm_compute. repeat split; congruence. Qed.

Lemma height_is_longest_path_witness :
  (∀ fuel, height (S fuel) tree_123 (nil tree_123) = Some 0)
  ∧ ∃ h, (∀ fuel, height (S (depth shape_123) + fuel) tree_123 (root tree_123) = Some h)
         ∧ down_path tree_123 (root tree_123) h
         ∧ ∀ d, down_path tree_123 (root tree_123) d → d ≤ h.
Proof.
  exact (height_is_longest_path tree_123 (root tree_123) shape_123 tree_123_shape).
Defined.

(** * Reading after writing *)

Lemma node_set_node x n t x' :
  node (set_node x n t) x'
  = if decide (x' = x ∧ (x < length (heap t))%nat) then n else node t x'.
Proof.
  unfold node, set_node; simpl. case_decide as H.
  - destruct H as [-> H]. by rewrite list_lookup_insert_eq.
  - destruct (decide (x = x')) as [->|Hne].
    + rewrite list_insert_ge; [done|]. apply Nat.nlt_ge. tauto.
    + by rewrite list_lookup_insert_ne.
Qed.

Lemma node_in_heap t x : (x < length (heap t))%nat → heap t !! x = Some (node t x).
Proof.
  intros H. apply lookup_lt_is_Some in H as [n E]. unfold node, ref. by rewrite E.
Qed.

Lemma key_set_parent x v t x' : key_of (set_parent x v t) x' = key_of t x'.
Proof.
  unfold key_of, set_parent. rewrite node_set_node.
  case_decide as H; [destruct H as [-> _]|]; done.
Qed.

Lemma key_set_left x v t x' : key_of (set_left x v t) x' = key_of t x'.
Proof.
  unfold key_of, set_left. rewrite node_set_node.
  case_decide as H; [destruct H as [-> _]|]; done.
Qed.

Lemma key_set_right x v t x' : key_of (set_right x v t) x' = key_of t x'.
Proof.
  unfold key_of, set_right. rewrite node_set_node.
  case_decide as H; [destruct H as [-> _]|]; done.
Qed.

Lemma key_set_color x c t x' : key_of (set_color x c t) x' = key_of t x'.
Proof.
  unfold key_of, set_color. rewrite node_set_node.
  case_decide as H; [destruct H as [-> _]|]; done.
Qed.

Lemma color_set_parent x v t x' : color_of (set_parent x v t) x' = color_of t x'.
Proof.
  unfold color_of, set_parent. rewrite node_set_node.
  case_decide as H; [destruct H as [-> _]|]; done.
Qed.

Lemma color_set_left x v t x' : color_of (set_left x v t) x' = color_of t x'.
Proof.
  unfold color_of, set_left. rewrite node_set_node.
  case_decide as H; [destruct H as [-> _]|]; done.
Qed.

Lemma color_set_right x v t x' : color_of (set_right x v t) x' = color_of t x'.
Proof.
  unfold color_of, set_right. rewrite node_set_node.
  case_decide as H; [destruct H as [-> _]|]; done.
Qed.

Lemma color_set_color x c t x' :
  color_of (set_color x c t) x'
  = if decide (x' = x ∧ (x < length (heap t))%nat) then c else color_of t x'.
Proof.
  unfold color_of, set_color. rewrite node_set_node. by case_decide.
Qed.

Lemma parent_set_parent x v t x' :
  parent_of (set_parent x v t) x'
  = if decide (x' = x ∧ (x < length (heap t))%nat) then v else parent_of t x'.
Proof.
  unfold parent_of, set_parent. rewrite node_set_node. by case_decide.
Qed.

Lemma parent_set_left x v t x' : parent_of (set_left x v t) x' = parent_of t x'.
Proof.
  unfold parent_of, set_left. rewrite node_set_node.
  case_decide as H; [destruct H as [-> _]|]; done.
Qed.

Lemma parent_set_right x v t x' : parent_of (set_right x v t) x' = parent_of t x'.
Proof.
  unfold parent_of, set_right. rewrite node_set_node.
  case_decide as H; [destruct H as [-> _]|]; done.
Qed.

Lemma parent_set_color x c t x' : parent_of (set_color x c t) x' = parent_of t x'.
Proof.
  unfold parent_of, set_color. rewrite node_set_node.
  case_decide as H; [destruct H as [-> _]|]; done.
Qed.

Lemma left_set_parent x v t x' : left_of (set_parent x v t) x' = left_of t x'.
Proof.
  unfold left_of, set_parent. rewrite node_set_node.
  case_decide as H; [destruct H as [-> _]|]; done.
Qed.

Lemma left_set_left x v t x' :
  left_of (set_left x v t) x'
  = if decide (x' = x ∧ (x < length (heap t))%nat) then v else left_of t x'.
Proof.
  unfold left_of, set_left. rewrite node_set_node. by case_decide.
Qed.

Lemma left_set_right x v t x' : left_of (set_right x v t) x' = left_of t x'.
Proof.
  unfold left_of, set_right. rewrite node_set_node.
  case_decide as H; [destruct H as [-> _]|]; done.
Qed.

Lemma left_set_color x c t x' : left_of (set_color x c t) x' = left_of t x'.
Proof.
  unfold left_of, set_color. rewrite node_set_node.
  case_decide as H; [destruct H as [-> _]|]; done.
Qed.

Lemma right_set_parent x v t x' : right_of (set_parent x v t) x' = right_of t x'.
Proof.
  unfold right_of, set_parent. rewrite node_set_node.
  case_decide as H; [destruct H as [-> _]|]; done.
Qed.

Lemma right_set_left x v t x' : right_of (set_left x v t) x' = right_of t x'.
Proof.
  unfold right_of, set_left. rewrite node_set_node.
  case_decide as H; [destruct H as [-> _]|]; done.
Qed.

Lemma right_set_right x v t x' :
  right_of (set_right x v t) x'
  = if decide (x' = x ∧ (x < length (heap t))%nat) then v else right_of t x'.
Proof.
  unfold right_of, set_right. rewrite node_set_node. by case_decide.
Qed.

Lemma right_set_color x c t x' : right_of (set_color x c t) x' = right_of t x'.
Proof.
  unfold right_of, set_color. rewrite node_set_node.
  case_decide as H; [destruct H as [-> _]|]; done.
Qed.

Lemma length_set_node x n t : length (heap (set_node x n t)) = length (heap t).
Proof. unfold set_node; simpl. apply length_insert. Qed.

Lemma length_set_parent x v t : length (heap (set_parent x v t)) = length (heap t).
Proof. apply length_set_node. Qed.

Lemma length_set_left x v t : length (heap (set_left x v t)) = length (heap t).
Proof. apply length_set_node. Qed.

Lemma length_set_right x v t : length (heap (set_right x v t)) = length (heap t).
Proof. apply length_set_node. Qed.

Lemma length_set_color x c t : length (heap (set_color x c t)) = length (heap t).
Proof. apply length_set_node. Qed.

Lemma length_set_root v t : length (heap (set_root v t)) = length (heap t).
Proof. reflexivity. Qed.

Lemma key_set_root v t x : key_of (set_root v t) x = key_of t x.
Proof. reflexivity. Qed.

Lemma color_set_root v t x : color_of (set_root v t) x = color_of t x.
Proof. reflexivity. Qed.

Lemma parent_set_root v t x : parent_of (set_root v t) x = parent_of t x.
Proof. reflexivity. Qed.

Lemma left_set_root v t x : left_of (set_root v t) x = left_of t x.
Proof. reflexivity. Qed.

Lemma right_set_root v t x : right_of (set_root v t) x = right_of t x.
Proof. reflexivity. Qed.

Create Rewrite HintDb fields.

#[local] Hint Rewrite
  key_set_parent key_set_left key_set_right key_set_color key_set_root
  color_set_parent color_set_left color_set_right color_set_color color_set_root
  parent_set_parent parent_set_left parent_set_right parent_set_color parent_set_root
  left_set_parent left_set_left left_set_right left_set_color left_set_root
  right_set_parent right_set_left right_set_right right_set_color right_set_root
  length_set_parent length_set_left length_set_right length_set_color length_set_root
  : fields.

(** * Properties kept by every write *)

(** The methods change the tree object only through the five kinds of
    assignment, and every value they assign is a constant colour, an
    argument, or a field they have read.  A property of states that each
    assignment keeps is therefore kept by every method. *)
Section closed_under_writes.
Variable I : RedBlackTree → Prop.
Variable V : ref → Prop.
Variable C : Z → Prop.
Hypothesis W : write_closed I V C.

Ltac close0 :=
  first
    [ assumption
    | apply (wc_I_parent _ _ _ W) | apply (wc_I_left _ _ _ W) | apply (wc_I_right _ _ _ W) | apply (wc_I_color _ _ _ W)
    | apply (wc_I_root _ _ _ W) | apply (wc_I_print _ _ _ W)
    | apply (wc_V_parent _ _ _ W) | apply (wc_V_left _ _ _ W) | apply (wc_V_right _ _ _ W) | apply (wc_V_nil _ _ _ W) | apply (wc_V_root _ _ _ W)
    | apply (wc_C_0 _ _ _ W) | apply (wc_C_1 _ _ _ W) | apply (wc_C_read _ _ _ W)
    | case_decide
    | (split; simpl) ].

Ltac close := repeat close0.

(** One [let] of the goal: its value is named and only what the
    hypotheses give about it is kept. *)
Ltac bind_value cl v a :=
  let T := type of a in
  let T' := eval cbv delta [ref] in T in
  lazymatch T' with
  | RedBlackTree =>
      let H := fresh "HI" in assert (H : I v) by (subst v; cl)
  | nat =>
      let H := fresh "HV" in assert (H : V v) by (subst v; cl)
  | Z =>
      let H := fresh "HC" in assert (H : C v) by (subst v; cl)
  | (_ * _)%type =>
      let H := fresh "HP" in assert (H : with_ref V I v) by (subst v; cl)
  end.

Ltac step cl :=
  lazymatch goal with
  | |- ?G (let v := ?a in @?b v) =>
      let v' := fresh v in
      pose (v' := a); change (G (b v')); cbv beta;
      bind_value cl v' a; clearbody v'
  | |- ?G (match ?a with pair w t => @?b w t end) =>
      let w' := fresh w in let t' := fresh t in
      let p := fresh "p" in
      pose (p := a); change (G (match p with pair w t => b w t end)); cbv beta;
      bind_value cl p a; clearbody p;
      let HV := fresh "HV" in let HI := fresh "HI" in
      lazymatch goal with
      | H : with_ref V I p |- _ =>
          destruct p as [w' t']; destruct H as [HV HI]; simpl in HV, HI
      end
  | |- ?G (if decide ?P then _ else _) => destruct (decide P)
  end.

Lemma left_rotate_keeps t x : I t → V x → I (left_rotate x t).
Proof. intros HI HV. unfold left_rotate. repeat step close; close. Qed.

Lemma right_rotate_keeps t y : I t → V y → I (right_rotate y t).
Proof. intros HI HV. unfold right_rotate. repeat step close; close. Qed.

Lemma rb_transplant_keeps t u v : I t → V u → V v → I (rb_transplant u v t).
Proof. intros HI Hu Hv. unfold rb_transplant. repeat step close; close. Qed.

Ltac close1 :=
  repeat first
    [ close0
    | apply left_rotate_keeps | apply right_rotate_keeps
    | apply rb_transplant_keeps ].

Lemma insert_fixup_body_keeps t z :
  I t → V z → with_ref V I (insert_fixup_body z t).
Proof. intros HI HV. unfold insert_fixup_body. repeat step close1; close1. Qed.

Lemma fix_delete_body_keeps t x :
  I t → V x → with_ref V I (fix_delete_body x t).
Proof. intros HI HV. unfold fix_delete_body. repeat step close1; close1. Qed.

Lemma insert_fixup_loop_keeps fuel t z r :
  I t → V z → insert_fixup_loop fuel z t = Some r → with_ref V I r.
Proof.
  revert t z; induction fuel as [|fuel IH]; intros t z HI HV; simpl; [done|].
  case_decide.
  - pose proof (insert_fixup_body_keeps t z HI HV) as H'.
    destruct (insert_fixup_body z t) as [z' t']. destruct H' as [? ?]. eauto.
  - intros [= <-]. by split.
Qed.

Lemma insert_fixup_keeps fuel t z t' :
  I t → V z → insert_fixup fuel z t = Some t' → I t'.
Proof.
  intros HI HV. unfold insert_fixup.
  destruct (insert_fixup_loop fuel z t) as [[z1 t1]|] eqn:E; [|done].
  apply insert_fixup_loop_keeps in E as [? ?]; [|done..].
  simpl in *. intros [= <-]. close.
Qed.

Lemma fix_delete_loop_keeps fuel t x r :
  I t → V x → fix_delete_loop fuel x t = Some r → with_ref V I r.
Proof.
  revert t x; induction fuel as [|fuel IH]; intros t x HI HV; simpl; [done|].
  destruct (fix_delete_cond x t).
  - pose proof (fix_delete_body_keeps t x HI HV) as H'.
    destruct (fix_delete_body x t) as [x' t']. destruct H' as [? ?]. eauto.
  - intros [= <-]. by split.
Qed.

Lemma fix_delete_keeps fuel t x t' :
  I t → V x → fix_delete fuel x t = Some t' → I t'.
Proof.
  intros HI HV. unfold fix_delete.
  destruct (fix_delete_loop fuel x t) as [[x1 t1]|] eqn:E; [|done].
  apply fix_delete_loop_keeps in E as [? ?]; [|done..].
  simpl in *. intros [= <-]. close.
Qed.

Lemma minimum_keeps fuel t n m : I t → V n → minimum fuel t n = Some m → V m.
Proof.
  intros HI. revert n; induction fuel as [|fuel IH]; intros n HV; simpl; [done|].
  case_decide; [apply IH; close | by intros [= <-]].
Qed.

Lemma find_keeps fuel t k m : I t → find fuel t k = Some m → V m.
Proof.
  intros HI. unfold find. case_decide; [intros [= <-]; close|].
  assert (HV : V (root t)) by close. revert HV. generalize (root t).
  induction fuel as [|fuel IH]; intros n HV; simpl; [done|].
  repeat case_decide; try (by intros [= <-]); apply IH; close.
Qed.

Lemma insert_descend_keeps fuel t k y x y' :
  I t → V y → V x → insert_descend fuel t k y x = Some (Parent y') → V y'.
Proof.
  intros HI. revert y x; induction fuel as [|fuel IH]; intros y x Hy Hx; simpl; [done|].
  repeat case_decide; try done; try (by intros [= <-]); apply IH; close.
Qed.

Lemma delete_splice_keeps fuel t z :
  I t → V z →
  when_some (λ r, V (fst (fst r)) ∧ I (snd r)) (delete_splice fuel z t).
Proof.
  intros HI HV. unfold delete_splice. repeat step close1.
  - intros r [= <-]. simpl. close1.
  - intros r [= <-]. simpl. close1.
  - intros r. destruct (minimum fuel t (right_of t z)) as [y0|] eqn:E; [|done].
    simpl. apply minimum_keeps in E; [|close..].
    revert r. repeat step close1; intros r [= <-]; simpl; close1.
Qed.

Lemma delete_node_helper_keeps fuel t z t' :
  I t → V z → delete_node_helper fuel z t = Some t' → I t'.
Proof.
  intros HI HV. unfold delete_node_helper.
  destruct (delete_splice fuel z t) as [[[x c] t1]|] eqn:E; [|done].
  apply delete_splice_keeps in E as [? ?]; [|done..]. simpl in *.
  case_decide; [apply fix_delete_keeps; close1 | intros [= <-]; close1].
Qed.

Lemma delete_node_keeps fuel t k r t' :
  I t → delete_node fuel k t = Some (r, t') → I t'.
Proof.
  intros HI. unfold delete_node.
  destruct (find fuel t k) as [z|] eqn:E; [|done]. simpl.
  apply find_keeps in E; [|done].
  case_decide; [intros [= <- <-]; close|].
  destruct (delete_node_helper fuel z t) as [t1|] eqn:E1; [|done]. simpl.
  intros [= <- <-]. eapply delete_node_helper_keeps; eauto.
Qed.

(** [insert], from the state in which the new node has been
    constructed. *)
Lemma insert_keeps fuel t k r t' :
  I (snd (new_node k t)) → V (fst (new_node k t)) →
  insert fuel k t = Some (r, t') → I t'.
Proof.
  unfold insert. destruct (new_node k t) as [z t0]. simpl. intros HI HV.
  destruct (insert_descend fuel t0 (key_of t0 z) (nil t0) (root t0)) as [d|] eqn:E;
    [|done]. simpl.
  destruct d as [|y].
  - intros [= <- <-]. close.
  - apply insert_descend_keeps in E; [|close..].
    case_decide.
    + intros [= <- <-]. close.
    + match goal with
      | |- context [insert_fixup fuel ?a ?b] =>
          destruct (insert_fixup fuel a b) as [t1|] eqn:E1; [|done]
      end.
      simpl. intros [= <- <-]. eapply insert_fixup_keeps; [| |exact E1]; close.
Qed.
End closed_under_writes.

(** * No reference dangles *)

Lemma heap_closed_at t : heap_closed t ↔ closed_at (length (heap t)) t.
Proof. unfold heap_closed, closed_at. tauto. Qed.

Lemma node_outside t x :
  (length (heap t) ≤ x)%nat → node t x = mkNode 0 0%nat 0%nat 0%nat 0.
Proof. intros H. unfold node, ref. by rewrite lookup_ge_None_2. Qed.

Lemma closed_node len t x : closed_at len t → node_closed len (node t x).
Proof.
  intros (Hl & Hn & Hr & Hf).
  destruct (decide (x < length (heap t))%nat) as [Hx|Hx].
  - eapply Forall_lookup_1; [exact Hf|]. by apply node_in_heap.
  - rewrite node_outside by lia. unfold node_closed; simpl. lia.
Qed.

Lemma closed_set_node len t x n :
  closed_at len t → node_closed len n → closed_at len (set_node x n t).
Proof.
  intros (Hl & Hn & Hr & Hf) Hc. unfold closed_at, set_node; simpl.
  rewrite length_insert. repeat split; try done. by apply Forall_insert.
Qed.

Lemma closed_write_closed len :
  write_closed (closed_at len) (λ v, (v < len)%nat) (λ _, True).
Proof.
  split; try done.
  - intros t x v H Hv. apply closed_set_node; [done|].
    pose proof (closed_node _ t x H) as Hc. unfold node_closed in *; simpl; tauto.
  - intros t x v H Hv. apply closed_set_node; [done|].
    pose proof (closed_node _ t x H) as Hc. unfold node_closed in *; simpl; tauto.
  - intros t x v H Hv. apply closed_set_node; [done|].
    pose proof (closed_node _ t x H) as Hc. unfold node_closed in *; simpl; tauto.
  - intros t x c H _. apply closed_set_node; [done|].
    pose proof (closed_node _ t x H) as Hc. unfold node_closed in *; simpl; tauto.
  - intros t v (? & ? & ? & ?) Hv. by repeat split.
  - intros t x H. apply (closed_node _ t x H).
  - intros t x H. apply (closed_node _ t x H).
  - intros t x H. apply (closed_node _ t x H).
  - intros t H. apply H.
  - intros t H. apply H.
Qed.

Lemma closed_new_node len k t :
  closed_at len t → closed_at (S len) (snd (new_node k t)).
Proof.
  intros (Hl & Hn & Hr & Hf). unfold closed_at, new_node; simpl.
  rewrite length_app; simpl. repeat split; try lia.
  apply Forall_app. split.
  - eapply Forall_impl; [exact Hf|]. unfold node_closed. intros n. lia.
  - apply Forall_singleton. unfold node_closed; simpl. lia.
Qed.

Lemma closed_apply_op fuel o t t' :
  heap_closed t → apply_op fuel o t = Some t' → heap_closed t'.
Proof.
  rewrite !heap_closed_at. intros Ht E. destruct o as [k|k]; simpl in E.
  - destruct (insert fuel k t) as [[r t2]|] eqn:E2; [|done]. injection E as <-.
    assert (H2 : closed_at (S (length (heap t))) t2).
    { eapply (insert_keeps _ _ _ (closed_write_closed _)); [| |exact E2].
      - by apply closed_new_node.
      - simpl. lia. }
    destruct H2 as (E & ?). by rewrite E.
  - destruct (delete_node fuel k t) as [[r t2]|] eqn:E2; [|done]. injection E as <-.
    assert (H2 : closed_at (length (heap t)) t2)
      by (eapply (delete_node_keeps _ _ _ (closed_write_closed _)); eauto).
    destruct H2 as (E & ?). by rewrite E.
Qed.

(** X1: no reference ever dangles.  If the sentinel, the root and the
    three links of every node are objects of the heap, they still are
    after any sequence of [insert] and [delete_node] calls that
    returns. *)
Theorem references_stay_in_heap fuel ops t t' :
  heap_closed t → run fuel ops t = Some t' → heap_closed t'.
Proof.
  revert t; induction ops as [|o ops IH]; intros t Ht; simpl.
  - by intros [= <-].
  - destruct (apply_op fuel o t) as [t1|] eqn:E; [|done]. simpl.
    apply IH. eapply closed_apply_op; eauto.
Qed.

Lemma init_closed : heap_closed init.
Proof.
  unfold heap_closed, init; simpl. repeat split; try lia.
  apply Forall_singleton. unfold node_closed; simpl. lia.
Defined.

Lemma references_stay_in_heap_witness :
  ∃ t', run 5 golden_inserts init = Some t' ∧ heap_closed t'.
Proof.
  eexists. split; [vm_compute; reflexivity|].
  eapply (references_stay_in_heap 5 golden_inserts init); [exact init_closed|].
  vm_compute. reflexivity.
Defined.

(** * Red or black *)

Lemma colors_node t x :
  colors_01 t → color (node t x) = RED ∨ color (node t x) = BLACK.
Proof.
  intros Hf. destruct (decide (x < length (heap t))%nat) as [Hx|Hx].
  - eapply (Forall_lookup_1 _ _ _ _ Hf). by apply node_in_heap.
  - rewrite node_outside by lia. by right.
Qed.

Lemma colors_write_closed :
  write_closed colors_01 (λ _, True) (λ c, c = RED ∨ c = BLACK).
Proof.
  split; try done; try (by left); try (by right).
  - intros t x v H _. apply Forall_insert; [done|]. apply (colors_node t x H).
  - intros t x v H _. apply Forall_insert; [done|]. apply (colors_node t x H).
  - intros t x v H _. apply Forall_insert; [done|]. apply (colors_node t x H).
  - intros t x c H Hc. apply Forall_insert; [done|]. exact Hc.
  - intros t x H. apply (colors_node t x H).
Qed.

Lemma colors_apply_op fuel o t t' :
  colors_01 t → apply_op fuel o t = Some t' → colors_01 t'.
Proof.
  intros Ht E. destruct o as [k|k]; simpl in E.
  - destruct (insert fuel k t) as [[r t2]|] eqn:E2; [|done]. injection E as <-.
    eapply (insert_keeps _ _ _ colors_write_closed); [| |exact E2]; [|done].
    unfold colors_01, new_node; simpl. apply Forall_app. split; [done|].
    apply Forall_singleton. by left.
  - destruct (delete_node fuel k t) as [[r t2]|] eqn:E2; [|done]. injection E as <-.
    eapply (delete_node_keeps _ _ _ colors_write_closed); eauto.
Qed.

(** X2: the first of the red-black properties holds in every state.
    If every object of the heap has colour 1 or 0, so it has after any
    sequence of [insert] and [delete_node] calls that returns, whatever
    the shape of the tree. *)
Theorem colors_stay_red_or_black fuel ops t t' :
  colors_01 t → run fuel ops t = Some t' →
  ∀ x, color_of t' x = RED ∨ color_of t' x = BLACK.
Proof.
  intros Ht E x. apply colors_node. revert t Ht E.
  induction ops as [|o ops IH]; intros t Ht; simpl.
  - by intros [= <-].
  - destruct (apply_op fuel o t) as [t1|] eqn:E; [|done]. simpl.
    apply IH. eapply colors_apply_op; eauto.
Qed.

Lemma init_colors : colors_01 init.
Proof. apply Forall_singleton. by right. Defined.

Lemma colors_stay_red_or_black_witness :
  ∃ t', run 5 red_sentinel_ops init = Some t'
        ∧ ∀ x, color_of t' x = RED ∨ color_of t' x = BLACK.
Proof.
  eexists. split; [vm_compute; reflexivity|].
  eapply (colors_stay_red_or_black 5 red_sentinel_ops init); [exact init_colors|].
  vm_compute. reflexivity.
Defined.

(** * Keys stay with their nodes *)

Lemma same_keys_refl t : same_keys t t.
Proof. by repeat split. Qed.

Lemma same_keys_write_closed t0 :
  write_closed (same_keys t0) (λ _, True) (λ _, True).
Proof.
  split; try done.
  - intros t x v (? & ? & Hk) _. repeat split; try done.
    + unfold set_parent, set_left, set_right, set_color. by rewrite length_set_node.
    + intros y. by rewrite key_set_parent.
  - intros t x v (? & ? & Hk) _. repeat split; try done.
    + unfold set_parent, set_left, set_right, set_color. by rewrite length_set_node.
    + intros y. by rewrite key_set_left.
  - intros t x v (? & ? & Hk) _. repeat split; try done.
    + unfold set_parent, set_left, set_right, set_color. by rewrite length_set_node.
    + intros y. by rewrite key_set_right.
  - intros t x v (? & ? & Hk) _. repeat split; try done.
    + unfold set_parent, set_left, set_right, set_color. by rewrite length_set_node.
    + intros y. by rewrite key_set_color.
Qed.

(** X3: [delete_node] moves nodes, not keys.  Whatever the state, a call
    that returns has constructed no object, and every object, the
    sentinel included, still carries the key it had: a reference held by
    the caller keeps its key. *)
Theorem delete_node_keeps_keys fuel k t r t' :
  delete_node fuel k t = Some (r, t') →
  nil t' = nil t
  ∧ length (heap t') = length (heap t)
  ∧ ∀ x, key_of t' x = key_of t x.
Proof.
  intros E.
  apply (delete_node_keeps _ _ _ (same_keys_write_closed t) _ _ _ _ _
           (same_keys_refl t) E).
Qed.

Lemma delete_node_keeps_keys_witness :
  ∃ r t', delete_node 5 2 tree_123 = Some (r, t')
          ∧ nil t' = nil tree_123
          ∧ length (heap t') = length (heap tree_123)
          ∧ ∀ x, key_of t' x = key_of tree_123 x.
Proof.
  do 2 eexists. split; [vm_compute; reflexivity|].
  eapply (delete_node_keeps_keys 5 2 tree_123). vm_compute. reflexivity.
Defined.

(** X4: [insert] constructs exactly one object, which carries the key,
    and changes the key of no other object, whether the key is new or
    already in the tree. *)
Theorem insert_constructs_one_node fuel k t r t' :
  insert fuel k t = Some (r, t') →
  nil t' = nil t
  ∧ length (heap t') = S (length (heap t))
  ∧ key_of t' (length (heap t)) = k
  ∧ ∀ x, (x < length (heap t))%nat → key_of t' x = key_of t x.
Proof.
  intros E.
  pose proof (insert_keeps _ _ _ (same_keys_write_closed (snd (new_node k t)))
                _ _ _ _ _ (same_keys_refl _) Logic.I E) as (Hn & Hl & Hk).
  split; [exact Hn|]. split.
  - rewrite Hl. unfold new_node; simpl. rewrite length_app; simpl. lia.
  - split.
    + rewrite Hk. apply (new_node_key k t).
    + intros x Hx. rewrite Hk. unfold key_of. by rewrite new_node_old.
Qed.

Lemma insert_constructs_one_node_witness :
  ∃ r t', insert 5 7 tree_123 = Some (r, t')
          ∧ nil t' = nil tree_123
          ∧ length (heap t') = S (length (heap tree_123))
          ∧ key_of t' (length (heap tree_123)) = 7
          ∧ ∀ x, (x < length (heap tree_123))%nat → key_of t' x = key_of tree_123 x.
Proof.
  do 2 eexists. split; [vm_compute; reflexivity|].
  eapply (insert_constructs_one_node 5 7 tree_123). vm_compute. reflexivity.
Defined.

(** * Searching a stored search tree *)

Lemma find_helper_present t n tr k :
  shape t n tr → bst tr → k ∈ inorder tr →
  ∀ fuel, ∃ m, find_helper (S (depth tr) + fuel) t k n = Some m
               ∧ m ≠ nil t ∧ key_of t m = k.
Proof.
  induction 1 as [|n l r Hn Hlt Hl IHl Hr IHr]; intros Hb Hk fuel.
  - by apply elem_of_nil in Hk.
  - destruct Hb as (Hlo & Hhi & Hbl & Hbr).
    cbn [depth]. change (S (S ?a) + fuel)%nat with (S (S a + fuel)).
    cbn [find_helper]. cbn [inorder] in Hk.
    destruct (decide (key_of t n = k)) as [Heq|Hne].
    + rewrite decide_True by (by right). eauto.
    + rewrite decide_False by (intros [?|?]; congruence).
      apply elem_of_app in Hk as [Hk|Hk].
      * specialize (Hlo _ Hk). rewrite decide_True by done.
        destruct (IHl Hbl Hk 0%nat) as (m & E & ?).
        exists m. split; [|done]. eapply find_helper_mono; [exact E | lia].
      * apply elem_of_cons in Hk as [->|Hk]; [done|].
        specialize (Hhi _ Hk). rewrite decide_False by lia.
        destruct (IHr Hbr Hk 0%nat) as (m & E & ?).
        exists m. split; [|done]. eapply find_helper_mono; [exact E | lia].
Qed.

(** X5: membership.  On a heap that stores a binary search tree at the
    root, [find(k)] returns; it returns a node other than the sentinel,
    carrying the key [k], when [k] is a key of the tree, and the sentinel
    when it is not (in particular on the empty tree). *)
Theorem find_decides_membership t tr k :
  shape t (root t) tr → bst tr →
  ∀ fuel, ∃ m,
    find (S (depth tr) + fuel) t k = Some m
    ∧ (k ∈ inorder tr → m ≠ nil t ∧ key_of t m = k)
    ∧ (k ∉ inorder tr → m = nil t).
Proof.
  intros Hs Hb fuel. destruct (decide (k ∈ inorder tr)) as [Hk|Hk].
  - destruct (find_helper_present _ _ _ _ Hs Hb Hk fuel) as (m & E & Hm & Hkey).
    exists m. unfold find. case_decide as Hr.
    + exfalso. rewrite Hr in Hs. inversion Hs; subst; [by apply elem_of_nil in Hk | done].
    + split; [exact E|]. split; [done | intros; done].
  - exists (nil t). unfold find. case_decide as Hr.
    + split; [done|]. split; [intros; done | done].
    + split; [by apply find_helper_absent|]. split; [intros; done | done].
Qed.

Lemma find_decides_membership_witness :
  ∃ m,
    find (S (depth shape_123) + 0) tree_123 3 = Some m
    ∧ (3 ∈ inorder shape_123 → m ≠ nil tree_123 ∧ key_of tree_123 m = 3)
    ∧ (3 ∉ inorder shape_123 → m = nil tree_123).
Proof.
  exact (find_decides_membership tree_123 shape_123 3 tree_123_shape shape_123_bst 0%nat).
Defined.

(** * The ends of a stored tree *)

Lemma bst_head_least l k c r a :
  bst (T l k c r) → a ∈ inorder r → k < a.
Proof. intros (_ & Hhi & _) Ha. auto. Qed.

(** X6: on a heap that stores a tree below a node [n] (not the
    sentinel), [minimum(n)] returns the leftmost node: a node without left
    child whose key is the first of the in-order sequence, hence the least
    key when the tree is a search tree. *)
Theorem minimum_is_first_in_order t n tr :
  shape t n tr → n ≠ nil t →
  ∀ fuel, ∃ m,
    minimum (depth tr + fuel) t n = Some m
    ∧ m ≠ nil t
    ∧ left_of t m = nil t
    ∧ head (inorder tr) = Some (key_of t m)
    ∧ (bst tr → ∀ a, a ∈ inorder tr → key_of t m ≤ a).
Proof.
  induction 1 as [|n l r Hn Hlt Hl IHl Hr IHr]; intros Hne fuel; [done|].
  cbn [depth]. change (S ?a + fuel)%nat with (S (a + fuel)). cbn [minimum].
  destruct (decide (left_of t n = nil t)) as [E|E].
  - rewrite decide_False by (intros ?; done).
    rewrite E in Hl. inversion Hl; subst; [|done].
    exists n. repeat split; try done.
    intros (_ & Hhi & _) a Ha. cbn [inorder] in Ha. simpl in Ha.
    apply elem_of_cons in Ha as [->|Ha]; [lia|]. specialize (Hhi _ Ha). lia.
  - rewrite decide_True by done.
    destruct (IHl E 0%nat) as (m & Em & Hm & Hlm & Hh & Hle).
    exists m. split; [eapply minimum_mono; [exact Em | lia]|].
    split; [done|]. split; [done|]. split.
    + cbn [inorder]. destruct (inorder l) as [|a0 l0]; [done|]. exact Hh.
    + intros (Hlo & Hhi & Hbl & Hbr) a Ha. cbn [inorder] in Ha.
      assert (Hmk : key_of t m < key_of t n).
      { apply Hlo. destruct (inorder l) as [|a0 l0] eqn:El; [done|].
        injection Hh as ->. apply elem_of_cons. by left. }
      apply elem_of_app in Ha as [Ha|Ha]; [by apply Hle|].
      apply elem_of_cons in Ha as [->|Ha]; [lia|]. specialize (Hhi _ Ha). lia.
Qed.

Lemma minimum_is_first_in_order_witness :
  ∃ m,
    minimum (depth shape_123 + 0) tree_123 (root tree_123) = Some m
    ∧ m ≠ nil tree_123
    ∧ left_of tree_123 m = nil tree_123
    ∧ head (inorder shape_123) = Some (key_of tree_123 m)
    ∧ (bst shape_123 → ∀ a, a ∈ inorder shape_123 → key_of tree_123 m ≤ a).
Proof.
  refine (minimum_is_first_in_order tree_123 (root tree_123) shape_123 tree_123_shape _ 0%nat).
  vm_compute. lia.
Defined.

(** X7: [maximum(n)] returns the rightmost node: a node without right
    child whose key is the last of the in-order sequence, hence the
    greatest key when the tree is a search tree. *)
Theorem maximum_is_last_in_order t n tr :
  shape t n tr → n ≠ nil t →
  ∀ fuel, ∃ m,
    maximum (depth tr + fuel) t n = Some m
    ∧ m ≠ nil t
    ∧ right_of t m = nil t
    ∧ last (inorder tr) = Some (key_of t m)
    ∧ (bst tr → ∀ a, a ∈ inorder tr → a ≤ key_of t m).
Proof.
  induction 1 as [|n l r Hn Hlt Hl IHl Hr IHr]; intros Hne fuel; [done|].
  cbn [depth]. change (S ?a + fuel)%nat with (S (a + fuel)). cbn [maximum].
  destruct (decide (right_of t n = nil t)) as [E|E].
  - rewrite decide_False by (intros ?; done).
    rewrite E in Hr. inversion Hr; subst; [|done].
    exists n. repeat split; try done.
    + cbn [inorder]. by rewrite last_snoc.
    + intros (Hlo & _) a Ha. cbn [inorder] in Ha.
      apply elem_of_app in Ha as [Ha|Ha]; [specialize (Hlo _ Ha); lia|].
      apply elem_of_cons in Ha as [->|Ha]; [lia | by apply elem_of_nil in Ha].
  - rewrite decide_True by done.
    destruct (IHr E 0%nat) as (m & Em & Hm & Hrm & Hh & Hle).
    exists m. split; [eapply maximum_mono; [exact Em | lia]|].
    split; [done|]. split; [done|]. split.
    + cbn [inorder]. rewrite last_app, last_cons, Hh. done.
    + intros (Hlo & Hhi & Hbl & Hbr) a Ha. cbn [inorder] in Ha.
      assert (Hmk : key_of t n < key_of t m).
      { apply Hhi. apply last_Some in Hh as (l0 & ->).
        apply elem_of_app. right. apply elem_of_cons. by left. }
      apply elem_of_app in Ha as [Ha|Ha]; [specialize (Hlo _ Ha); lia|].
      apply elem_of_cons in Ha as [->|Ha]; [lia | by apply Hle].
Qed.

Lemma maximum_is_last_in_order_witness :
  ∃ m,
    maximum (depth shape_123 + 0) tree_123 (root tree_123) = Some m
    ∧ m ≠ nil tree_123
    ∧ right_of tree_123 m = nil tree_123
    ∧ last (inorder shape_123) = Some (key_of tree_123 m)
    ∧ (bst shape_123 → ∀ a, a ∈ inorder shape_123 → a ≤ key_of tree_123 m).
Proof.
  refine (maximum_is_last_in_order tree_123 (root tree_123) shape_123 tree_123_shape _ 0%nat).
  vm_compute. lia.
Defined.

(** * The first insertion *)

(** X8: [insert] into an empty tree (the root is the sentinel) returns
    after one step of the descent; the new node is the root, black, with
    the sentinel as parent and as both children; nothing is printed and
    no other object changes. *)
Theorem insert_into_empty_tree k t :
  root t = nil t → (nil t < length (heap t))%nat →
  ∀ fuel, ∃ t',
    insert (S fuel) k t = Some (ReturnNone, t')
    ∧ root t' = length (heap t) ∧ nil t' = nil t
    ∧ shape t' (root t') (T Leaf k BLACK Leaf)
    ∧ parent_of t' (root t') = nil t
    ∧ stdout t' = stdout t
    ∧ ∀ x, (x < length (heap t))%nat → node t' x = node t x.
Proof.
  intros Hr Hn fuel.
  set (z := length (heap t)). set (t0 := snd (new_node k t)).
  set (t' := set_color z 0 (set_root z (set_parent z (nil t0) t0))).
  assert (Hz : (z < length (heap t0))%nat)
    by (unfold t0, new_node; simpl; rewrite length_app; simpl; lia).
  assert (Hnode : node t0 z = mkNode k (nil t) (nil t) (nil t) RED).
  { unfold node, t0, new_node, ref; simpl.
    rewrite lookup_app_r by (unfold z; lia).
    by replace (z - length (heap t))%nat with 0%nat by (unfold z; lia). }
  exists t'. split; [|split; [|split; [|split; [|split; [|split]]]]].
  - unfold insert, new_node. cbv beta iota. fold z. cbn [insert_descend].
    rewrite decide_False by (simpl; rewrite Hr; intros H; by apply H).
    simpl. rewrite decide_True by done. reflexivity.
  - reflexivity.
  - reflexivity.
  - assert (Hk : key_of t' z = k).
    { unfold t'. autorewrite with fields. unfold key_of. by rewrite Hnode. }
    assert (Hc : color_of t' z = BLACK).
    { unfold t'. autorewrite with fields. by rewrite decide_True. }
    assert (Hl : left_of t' z = nil t').
    { unfold t'. autorewrite with fields. unfold left_of. by rewrite Hnode. }
    assert (Hri : right_of t' z = nil t').
    { unfold t'. autorewrite with fields. unfold right_of. by rewrite Hnode. }
    change (root t') with z. rewrite <- Hk, <- Hc.
    apply shape_node.
    + change (nil t') with (nil t). unfold z. lia.
    + unfold t'. autorewrite with fields. exact Hz.
    + rewrite Hl. constructor.
    + rewrite Hri. constructor.
  - change (root t') with z. unfold t'. autorewrite with fields.
    by rewrite decide_True.
  - reflexivity.
  - intros x Hx. unfold t'. unfold set_color. rewrite node_set_node.
    rewrite decide_False by (intros [-> _]; unfold z in Hx; lia).
    change (node (set_root ?v ?s) ?y) with (node s y).
    unfold set_parent. rewrite node_set_node.
    rewrite decide_False by (intros [-> _]; unfold z in Hx; lia).
    by apply new_node_old.
Qed.

Lemma insert_into_empty_tree_witness :
  ∃ t',
    insert 1 8 init = Some (ReturnNone, t')
    ∧ root t' = length (heap init) ∧ nil t' = nil init
    ∧ shape t' (root t') (T Leaf 8 BLACK Leaf)
    ∧ parent_of t' (root t') = nil init
    ∧ stdout t' = stdout init
    ∧ ∀ x, (x < length (heap init))%nat → node t' x = node init x.
Proof.
  refine (insert_into_empty_tree 8 init _ _ 0%nat); [reflexivity | simpl; lia].
Defined.

(** * Well-linked trees *)

Lemma linked_shape t p n rt : linked t p n rt → shape t n (labels t rt).
Proof. induction 1; simpl; constructor; auto. Qed.

Lemma linked_root_in t p n rt : linked t p n rt → n ≠ nil t → ∃ l r, rt = RNode l n r.
Proof. destruct 1; [done | eauto]. Qed.

Lemma linked_nil t p rt : linked t p (nil t) rt → rt = RLeaf.
Proof. inversion 1; [done | congruence]. Qed.

Lemma linked_refs_not_nil t p n rt x : linked t p n rt → x ∈ refs rt → x ≠ nil t.
Proof.
  induction 1 as [|p n l r Hn Hlt Hp Hl IHl Hr IHr]; simpl; intros Hx.
  - by apply elem_of_nil in Hx.
  - apply elem_of_app in Hx as [Hx|Hx]; [auto|].
    apply elem_of_cons in Hx as [->|Hx]; auto.
Qed.

Lemma linked_root_elem t p n rt : linked t p n rt → n ≠ nil t → n ∈ refs rt.
Proof.
  destruct 1; [done|]. intros _. simpl. apply elem_of_app. right.
  apply elem_of_cons. by left.
Qed.

Lemma NoDup_split_unique (l1 l1' l2 l2' : list ref) x :
  NoDup (l1 ++ x :: l2) → l1 ++ x :: l2 = l1' ++ x :: l2' → l1 = l1' ∧ l2 = l2'.
Proof.
  revert l1'; induction l1 as [|a l1 IH]; intros [|a' l1'] Hnd E; simpl in *.
  - by injection E as ->.
  - injection E as <- ->. apply NoDup_cons_1_1 in Hnd.
    exfalso. apply Hnd. apply elem_of_app. right. apply elem_of_cons. by left.
  - injection E as -> <-. apply NoDup_cons_1_1 in Hnd.
    exfalso. apply Hnd. apply elem_of_app. right. apply elem_of_cons. by left.
  - injection E as -> E. apply NoDup_cons_1_2 in Hnd.
    destruct (IH _ Hnd E) as [-> ->]. done.
Qed.

(** Where a node of [a ++ n :: b] lies: in [a], at [n], or in [b]. *)
Lemma split_middle (a b l1 l2 : list ref) n x :
  NoDup (a ++ n :: b) → a ++ n :: b = l1 ++ x :: l2 →
  (∃ l2', a = l1 ++ x :: l2' ∧ l2 = l2' ++ n :: b)
  ∨ (x = n ∧ l1 = a ∧ l2 = b)
  ∨ (∃ l1', b = l1' ++ x :: l2 ∧ l1 = a ++ n :: l1').
Proof.
  intros Hnd E.
  assert (Hx : x ∈ a ++ n :: b)
    by (rewrite E; apply elem_of_app; right; apply elem_of_cons; by left).
  apply elem_of_app in Hx as [Hx|Hx].
  - left. apply list_elem_of_split in Hx as (a1 & a2 & ->).
    rewrite <- app_assoc in E, Hnd. simpl in E, Hnd.
    destruct (NoDup_split_unique _ _ _ _ _ Hnd E) as [H1 H2]. subst. eauto.
  - apply elem_of_cons in Hx as [->|Hx].
    + right; left. destruct (NoDup_split_unique _ _ _ _ _ Hnd E) as [H1 H2]. by subst.
    + right; right. apply list_elem_of_split in Hx as (b1 & b2 & ->).
      replace (a ++ n :: b1 ++ x :: b2) with ((a ++ n :: b1) ++ x :: b2) in E, Hnd
        by (by rewrite <- app_assoc).
      destruct (NoDup_split_unique _ _ _ _ _ Hnd E) as [H1 H2]. subst. eauto.
Qed.

Lemma minimum_linked t p n rt :
  linked t p n rt → n ≠ nil t →
  ∃ m rest, refs rt = m :: rest
            ∧ ∀ fuel, minimum (rdepth rt + fuel) t n = Some m.
Proof.
  induction 1 as [|p n l r Hn Hlt Hp Hl IHl Hr IHr]; intros Hne; [done|].
  destruct (decide (left_of t n = nil t)) as [E|E].
  - rewrite E in Hl. apply linked_nil in Hl as ->. exists n, (refs r).
    split; [done|]. intros fuel. simpl. by rewrite decide_False by (intros ?; done).
  - destruct (IHl E) as (m & rest & Er & Hm). exists m, (rest ++ n :: refs r).
    split; [simpl; by rewrite Er|]. intros fuel. simpl. rewrite decide_True by done.
    eapply minimum_mono; [apply (Hm 0%nat) | lia].
Qed.

Lemma maximum_linked t p n rt :
  linked t p n rt → n ≠ nil t →
  ∃ m front, refs rt = front ++ [m]
             ∧ ∀ fuel, maximum (rdepth rt + fuel) t n = Some m.
Proof.
  induction 1 as [|p n l r Hn Hlt Hp Hl IHl Hr IHr]; intros Hne; [done|].
  destruct (decide (right_of t n = nil t)) as [E|E].
  - rewrite E in Hr. apply linked_nil in Hr as ->. exists n, (refs l).
    split; [done|]. intros fuel. simpl. by rewrite decide_False by (intros ?; done).
  - destruct (IHr E) as (m & front & Er & Hm). exists m, (refs l ++ n :: front).
    split; [simpl; rewrite Er; by rewrite <- app_assoc|].
    intros fuel. simpl. rewrite decide_True by done.
    eapply maximum_mono; [apply (Hm 0%nat) | lia].
Qed.

(** * Successor and predecessor *)

(** Inside a subtree: [successor] returns the next node of the subtree,
    and for its last node goes on as the upward loop does from the top of
    the subtree. *)
Lemma successor_linked t p n rt x l1 l2 :
  linked t p n rt → NoDup (refs rt) → refs rt = l1 ++ x :: l2 →
  (∀ y rest, l2 = y :: rest → ∀ fuel, successor (S (rdepth rt) + fuel) t x = Some y)
  ∧ (l2 = [] → ∀ f res, successor_up f t n p = Some res →
                        successor (rdepth rt + f) t x = Some res).
Proof.
  intros H; revert x l1 l2.
  induction H as [|p n l r Hn Hlt Hp Hl IHl Hr IHr]; intros x l1 l2 Hnd E.
  - by destruct l1.
  - simpl in Hnd, E.
    assert (Hndl : NoDup (refs l)) by (by apply NoDup_app in Hnd as (? & _)).
    assert (Hndr : NoDup (refs r)).
    { apply NoDup_app in Hnd as (_ & _ & Hnd). by apply NoDup_cons in Hnd as (_ & ?). }
    destruct (split_middle _ _ _ _ _ _ Hnd E) as
      [(l2' & El & ->)|[(-> & -> & ->)|(l1' & Er & ->)]].
    + (* in the left subtree *)
      destruct (IHl _ _ _ Hndl El) as [IH1 IH2].
      split; [|by destruct l2'].
      intros y rest Ey fuel. destruct l2' as [|y' rest'].
      * simpl in Ey. injection Ey as <- <-.
        assert (Hln : left_of t n ≠ right_of t n).
        { intros Heq.
          assert (Hx : x ∈ refs l)
            by (rewrite El; apply elem_of_app; right; apply elem_of_cons; by left).
          assert (Hl0 : left_of t n ≠ nil t).
          { intros H0. rewrite H0 in Hl. apply linked_nil in Hl. rewrite Hl in Hx.
            by apply elem_of_nil in Hx. }
          assert (Hr0 : right_of t n ∈ refs r)
            by (apply (linked_root_elem _ _ _ _ Hr); by rewrite <- Heq).
          apply NoDup_app in Hnd as (_ & Hdis & _).
          apply (Hdis (left_of t n)); [by apply (linked_root_elem _ _ _ _ Hl)|].
          apply elem_of_cons. right. by rewrite Heq. }
        eapply successor_mono; [apply (IH2 eq_refl 1%nat n)|simpl; lia].
        simpl. rewrite decide_False; [done|]. intros [_ ?]. done.
      * simpl in Ey. injection Ey as <- <-.
        eapply successor_mono; [apply (IH1 _ _ eq_refl 0%nat)|simpl; lia].
    + (* the top of the subtree *)
      split.
      * intros y rest Ey fuel. unfold successor.
        assert (Hr0 : right_of t n ≠ nil t).
        { intros H0. rewrite H0 in Hr. apply linked_nil in Hr. rewrite Hr in Ey.
          done. }
        rewrite decide_True by done.
        destruct (minimum_linked _ _ _ _ Hr Hr0) as (m & rest' & Em & Hm).
        rewrite Ey in Em. injection Em as <- <-.
        eapply minimum_mono; [apply (Hm 0%nat)|simpl; lia].
      * intros Er f res Hup. unfold successor.
        assert (Hr0 : right_of t n = nil t).
        { destruct r as [|la na ra]; [by inversion Hr|]. simpl in Er. by destruct (refs la). }
        rewrite decide_False by (intros ?; done). rewrite Hp.
        eapply successor_up_mono; [exact Hup|lia].
    + (* in the right subtree *)
      destruct (IHr _ _ _ Hndr Er) as [IH1 IH2]. split.
      * intros y rest Ey fuel.
        eapply successor_mono; [apply (IH1 _ _ Ey 0%nat)|simpl; lia].
      * intros El2 f res Hup.
        eapply successor_mono; [apply (IH2 El2 (S f) res)|simpl; lia].
        simpl. rewrite decide_True by done. by rewrite Hp.
Qed.

(** X9: on a well-linked tree, [successor(x)] returns and gives the node
    that follows [x] in the in-order sequence of the nodes, or the
    sentinel when [x] is the last one. *)
Theorem successor_is_next_in_order t rt x l1 l2 :
  well_linked t rt → refs rt = l1 ++ x :: l2 →
  ∀ fuel, successor (S (rdepth rt) + fuel) t x = Some (default (nil t) (head l2)).
Proof.
  intros [Hl Hnd] E fuel.
  destruct (successor_linked _ _ _ _ _ _ _ Hl Hnd E) as [H1 H2].
  destruct l2 as [|y rest]; simpl.
  - eapply successor_mono; [apply (H2 eq_refl 1%nat)|lia].
    simpl. rewrite decide_False; [done|]. intros [? _]. done.
  - by apply (H1 y rest).
Qed.

Lemma predecessor_linked t p n rt x l1 l2 :
  linked t p n rt → NoDup (refs rt) → refs rt = l1 ++ x :: l2 →
  (∀ y, last l1 = Some y → ∀ fuel, predecessor (S (rdepth rt) + fuel) t x = Some y)
  ∧ (l1 = [] → ∀ f res, predecessor_up f t n p = Some res →
                        predecessor (rdepth rt + f) t x = Some res).
Proof.
  intros H; revert x l1 l2.
  induction H as [|p n l r Hn Hlt Hp Hl IHl Hr IHr]; intros x l1 l2 Hnd E.
  - by destruct l1.
  - simpl in Hnd, E.
    assert (Hndl : NoDup (refs l)) by (by apply NoDup_app in Hnd as (? & _)).
    assert (Hndr : NoDup (refs r)).
    { apply NoDup_app in Hnd as (_ & _ & Hnd). by apply NoDup_cons in Hnd as (_ & ?). }
    destruct (split_middle _ _ _ _ _ _ Hnd E) as
      [(l2' & El & ->)|[(-> & -> & ->)|(l1' & Er & ->)]].
    + (* in the left subtree *)
      destruct (IHl _ _ _ Hndl El) as [IH1 IH2]. split.
      * intros y Ey fuel.
        eapply predecessor_mono; [apply (IH1 _ Ey 0%nat)|simpl; lia].
      * intros El1 f res Hup.
        eapply predecessor_mono; [apply (IH2 El1 (S f) res)|simpl; lia].
        simpl. rewrite decide_True by done. by rewrite Hp.
    + (* the top of the subtree *)
      split.
      * intros y Ey fuel. unfold predecessor.
        assert (Hl0 : left_of t n ≠ nil t).
        { intros H0. rewrite H0 in Hl. apply linked_nil in Hl. rewrite Hl in Ey.
          done. }
        rewrite decide_True by done.
        destruct (maximum_linked _ _ _ _ Hl Hl0) as (m & front & Em & Hm).
        rewrite Em, last_snoc in Ey. injection Ey as <-.
        eapply maximum_mono; [apply (Hm 0%nat)|simpl; lia].
      * intros El f res Hup. unfold predecessor.
        assert (Hl0 : left_of t n = nil t).
        { destruct l as [|la na ra]; [by inversion Hl|]. simpl in El. by destruct (refs la). }
        rewrite decide_False by (intros ?; done). rewrite Hp.
        eapply predecessor_up_mono; [exact Hup|lia].
    + (* in the right subtree *)
      destruct (IHr _ _ _ Hndr Er) as [IH1 IH2].
      split; [|intros H0; by destruct (refs l)].
      intros y Ey fuel. rewrite last_app, last_cons in Ey.
      destruct (last l1') as [y'|] eqn:El1.
      * injection Ey as <-.
        eapply predecessor_mono; [apply (IH1 _ eq_refl 0%nat)|simpl; lia].
      * injection Ey as <-. apply last_None in El1.
        assert (Hrn : right_of t n ≠ left_of t n).
        { intros Heq.
          assert (Hx : x ∈ refs r)
            by (rewrite Er; apply elem_of_app; right; apply elem_of_cons; by left).
          assert (Hr0 : right_of t n ≠ nil t).
          { intros H0. rewrite H0 in Hr. apply linked_nil in Hr. rewrite Hr in Hx.
            by apply elem_of_nil in Hx. }
          assert (Hl0 : left_of t n ∈ refs l)
            by (apply (linked_root_elem _ _ _ _ Hl); by rewrite <- Heq).
          apply NoDup_app in Hnd as (_ & Hdis & _).
          apply (Hdis (left_of t n) Hl0).
          apply elem_of_cons. right. rewrite <- Heq.
          by apply (linked_root_elem _ _ _ _ Hr). }
        eapply predecessor_mono; [apply (IH2 El1 1%nat n)|simpl; lia].
        simpl. rewrite decide_False; [done|]. intros [_ ?]. done.
Qed.

(** X10: on a well-linked tree, [predecessor(x)] returns and gives the
    node that precedes [x] in the in-order sequence of the nodes, or the
    sentinel when [x] is the first one. *)
Theorem predecessor_is_previous_in_order t rt x l1 l2 :
  well_linked t rt → refs rt = l1 ++ x :: l2 →
  ∀ fuel, predecessor (S (rdepth rt) + fuel) t x = Some (default (nil t) (last l1)).
Proof.
  intros [Hl Hnd] E fuel.
  destruct (predecessor_linked _ _ _ _ _ _ _ Hl Hnd E) as [H1 H2].
  destruct (last l1) as [y|] eqn:El1; simpl.
  - by apply (H1 y).
  - apply last_None in El1.
    eapply predecessor_mono; [apply (H2 El1 1%nat)|lia].
    simpl. rewrite decide_False; [done|]. intros [? _]. done.
Qed.

(** X11: on a well-linked tree that is not empty, [successor] of
    [maximum(root)] and [predecessor] of [minimum(root)] are both the
    sentinel. *)
Theorem ends_have_no_neighbour t rt :
  well_linked t rt → root t ≠ nil t →
  ∀ fuel, ∃ mn mx,
    minimum (rdepth rt + fuel) t (root t) = Some mn
    ∧ maximum (rdepth rt + fuel) t (root t) = Some mx
    ∧ predecessor (S (rdepth rt) + fuel) t mn = Some (nil t)
    ∧ successor (S (rdepth rt) + fuel) t mx = Some (nil t).
Proof.
  intros [Hl Hnd] Hr fuel.
  destruct (minimum_linked _ _ _ _ Hl Hr) as (mn & rest & Emn & Hmn).
  destruct (maximum_linked _ _ _ _ Hl Hr) as (mx & front & Emx & Hmx).
  exists mn, mx. split; [apply Hmn|]. split; [apply Hmx|]. split.
  - destruct (predecessor_linked _ _ _ _ mn [] rest Hl Hnd Emn) as [_ H2].
    eapply predecessor_mono; [apply (H2 eq_refl 1%nat)|lia].
    simpl. rewrite decide_False; [done|]. intros [? _]. done.
  - destruct (successor_linked _ _ _ _ mx front [] Hl Hnd Emx) as [_ H2].
    eapply successor_mono; [apply (H2 eq_refl 1%nat)|lia].
    simpl. rewrite decide_False; [done|]. intros [? _]. done.
Qed.

Lemma rtree_of_linked fuel t p n rt : rtree_of fuel t p n = Some rt → linked t p n rt.
Proof.
  revert p n rt; induction fuel as [|fuel IH]; intros p n rt; simpl; [done|].
  case_decide as Hn; [intros [= <-]; subst n; constructor|].
  case_decide as Hlt; [|done]. destruct Hlt as [Hlt Hp].
  destruct (rtree_of fuel t n (left_of t n)) as [l|] eqn:El; [|done].
  destruct (rtree_of fuel t n (right_of t n)) as [r|] eqn:Er; [|done].
  intros [= <-]. constructor; auto.
Defined.

Lemma tree_123_well_linked : well_linked tree_123 rtree_123.
Proof.
  split.
  - apply (rtree_of_linked 5). vm_compute. reflexivity.
  - apply (bool_decide_unpack _). vm_compute. exact Logic.I.
Defined.

Lemma successor_is_next_in_order_witness :
  successor (S (rdepth rtree_123) + 0) tree_123 2%nat
  = Some (default (nil tree_123) (head [3%nat])).
Proof.
  exact (successor_is_next_in_order tree_123 rtree_123 2%nat [1%nat] [3%nat]
           tree_123_well_linked eq_refl 0%nat).
Defined.

Lemma predecessor_is_previous_in_order_witness :
  predecessor (S (rdepth rtree_123) + 0) tree_123 1%nat
  = Some (default (nil tree_123) (last [])).
Proof.
  exact (predecessor_is_previous_in_order tree_123 rtree_123 1%nat [] [2%nat; 3%nat]
           tree_123_well_linked eq_refl 0%nat).
Defined.

Lemma ends_have_no_neighbour_witness :
  ∃ mn mx,
    minimum (rdepth rtree_123 + 0) tree_123 (root tree_123) = Some mn
    ∧ maximum (rdepth rtree_123 + 0) tree_123 (root tree_123) = Some mx
    ∧ predecessor (S (rdepth rtree_123) + 0) tree_123 mn = Some (nil tree_123)
    ∧ successor (S (rdepth rtree_123) + 0) tree_123 mx = Some (nil tree_123).
Proof.
  refine (ends_have_no_neighbour tree_123 rtree_123 tree_123_well_linked _ 0%nat).
  vm_compute. lia.
Defined.

(** * Rotations *)

Lemma links_refl t :
  links t (nil t) (length (heap t)) (root t) (left_of t) (right_of t) (parent_of t).
Proof. by repeat split. Qed.

Lemma links_set_left t n len rt L R P x v :
  links t n len rt L R P → (x < len)%nat →
  links (set_left x v t) n len rt (λ m, if decide (m = x) then v else L m) R P.
Proof.
  intros (N & Len & Rt & F) Hx. repeat split; autorewrite with fields; try done; try apply F.
  destruct (F m) as (-> & _ & _). rewrite Len. repeat case_decide; intuition.
Qed.

Lemma links_set_right t n len rt L R P x v :
  links t n len rt L R P → (x < len)%nat →
  links (set_right x v t) n len rt L (λ m, if decide (m = x) then v else R m) P.
Proof.
  intros (N & Len & Rt & F) Hx. repeat split; autorewrite with fields; try done; try apply F.
  destruct (F m) as (_ & -> & _). rewrite Len. repeat case_decide; intuition.
Qed.

Lemma links_set_parent t n len rt L R P x v :
  links t n len rt L R P → (x < len)%nat →
  links (set_parent x v t) n len rt L R (λ m, if decide (m = x) then v else P m).
Proof.
  intros (N & Len & Rt & F) Hx. repeat split; autorewrite with fields; try done; try apply F.
  destruct (F m) as (_ & _ & ->). rewrite Len. repeat case_decide; intuition.
Qed.

Lemma links_set_root t n len rt L R P v :
  links t n len rt L R P → links (set_root v t) n len v L R P.
Proof. intros (N & Len & Rt & F). by repeat split; try apply F. Qed.

Lemma links_ext t n len rt L R P L' R' P' :
  links t n len rt L R P →
  (∀ m, L m = L' m) → (∀ m, R m = R' m) → (∀ m, P m = P' m) →
  links t n len rt L' R' P'.
Proof.
  intros (N & Len & Rt & F) HL HR HP. repeat split; try done.
  - rewrite <- HL. apply F.
  - rewrite <- HR. apply F.
  - rewrite <- HP. apply F.
Qed.

Lemma left_rotate_links t x :
  let y := right_of t x in
  let bl := left_of t y in
  let px := parent_of t x in
  (x < length (heap t))%nat → (y < length (heap t))%nat → x ≠ y →
  (bl ≠ nil t → (bl < length (heap t))%nat ∧ bl ≠ x) →
  (px ≠ nil t → (px < length (heap t))%nat ∧ px ≠ y ∧ px ≠ x) →
  links (left_rotate x t) (nil t) (length (heap t))
    (if decide (px = nil t) then y else root t)
    (λ m, if decide (m = y) then x
          else if decide (m = px ∧ px ≠ nil t ∧ left_of t px = x) then y
          else left_of t m)
    (λ m, if decide (m = x) then bl
          else if decide (m = px ∧ px ≠ nil t ∧ left_of t px ≠ x) then y
          else right_of t m)
    (λ m, if decide (m = x) then y
          else if decide (m = y) then px
          else if decide (m = bl ∧ bl ≠ nil t) then x
          else parent_of t m).
Proof.
  intros y bl px Hx Hy Hxy Hbl Hpx.
  unfold left_rotate. cbv zeta. fold y.
  set (t1 := set_right x (left_of t y) t).
  set (t2 := if decide (left_of t1 y ≠ nil t1)
             then set_parent (left_of t1 y) x t1 else t1).
  set (t3 := set_parent y (parent_of t2 x) t2).
  set (t4 := if decide (parent_of t3 x = nil t3) then set_root y t3
             else if decide (x = left_of t3 (parent_of t3 x))
                  then set_left (parent_of t3 x) y t3
                  else set_right (parent_of t3 x) y t3).
  pose proof (links_set_right _ _ _ _ _ _ _ x bl (links_refl t) Hx) as L1.
  fold bl in t1. fold t1 in L1. clearbody t1.
  assert (∃ P2, links t2 (nil t) (length (heap t)) (root t) (left_of t)
                  (λ m, if decide (m = x) then bl else right_of t m) P2
                ∧ ∀ m, P2 m = if decide (m = bl ∧ bl ≠ nil t) then x else parent_of t m)
    as (P2 & L2 & HP2).
  { subst t2. pose proof L1 as (N1 & Len1 & Rt1 & F1).
    destruct (F1 y) as (-> & _ & _). fold bl. rewrite N1.
    case_decide as Eb.
    - eexists. split.
      + apply links_set_parent; [exact L1 | by destruct (Hbl Eb)].
      + intros m. simpl. repeat case_decide; intuition.
    - eexists. split; [exact L1|].
      intros m. simpl. repeat case_decide; intuition. }
  clearbody t2. clear L1 t1.
  assert (P2 x = px) as E2.
  { rewrite HP2. destruct (decide (x = bl ∧ bl ≠ nil t)) as [E|E]; [|done]. destruct E as [E1 E]. by destruct (Hbl E). }
  pose proof (links_set_parent _ _ _ _ _ _ _ y (parent_of t2 x) L2 Hy) as L3.
  fold t3 in L3. destruct L2 as (_ & _ & _ & F2).
  destruct (F2 x) as (_ & _ & E). rewrite E, E2 in L3. clear E F2.
  clearbody t3. clear t2.
  pose proof L3 as (N3 & Len3 & Rt3 & F3).
  assert (links t4 (nil t) (length (heap t))
            (if decide (px = nil t) then y else root t)
            (λ m, if decide (m = px ∧ px ≠ nil t ∧ left_of t px = x) then y
                  else left_of t m)
            (λ m, if decide (m = x) then bl
                  else if decide (m = px ∧ px ≠ nil t ∧ left_of t px ≠ x) then y
                  else right_of t m)
            (λ m, if decide (m = y) then px else P2 m)) as L4.
  { subst t4. destruct (F3 x) as (_ & _ & ->). rewrite (decide_False (P := x = y)) by done.
    rewrite E2, N3. destruct (F3 px) as (-> & _ & _).
    destruct (decide (px = nil t)) as [Ep|Ep].
    - eapply links_ext; [eapply links_set_root; exact L3| | |]; intros m; simpl;
        repeat case_decide; intuition.
    - destruct (Hpx Ep) as (Hp1 & Hp2 & Hp3).
      destruct (decide (x = left_of t px)) as [El|El].
      + eapply links_ext; [apply links_set_left; [exact L3|done]| | |]; intros m; simpl;
          repeat case_decide; try done; exfalso; intuition congruence.
      + eapply links_ext; [apply links_set_right; [exact L3|done]| | |]; intros m; simpl;
          repeat case_decide; try done; exfalso; intuition congruence. }
  clearbody t4. clear N3 Len3 Rt3 F3 L3 t3.
  eapply links_ext;
    [apply links_set_parent; [apply links_set_left; [exact L4|done] | done] | | |];
    intros m; simpl; rewrite ?HP2; repeat case_decide; try done;
    try (exfalso; intuition congruence).
Qed.

Lemma refs_plug s c : refs (plug s c) = before c ++ refs s ++ after c.
Proof.
  revert s; induction c as [|up IH n r|l n up IH]; intros s; simpl.
  - by rewrite app_nil_r.
  - rewrite IH. simpl. by rewrite <- !app_assoc.
  - rewrite IH. simpl. by rewrite <- !app_assoc.
Qed.

Lemma linked_plug t p0 n0 s c :
  linked t p0 n0 (plug s c)
  ↔ ∃ h, linked_path t p0 n0 c h ∧ linked t (hparent p0 c) h s.
Proof.
  revert s; induction c as [|up IH n r|l n up IH]; intros s; simpl.
  - split; [intros H; exists n0; split; [constructor|done]|].
    intros (h & Hp & Hs). by inversion Hp; subst.
  - rewrite IH. split.
    + intros (h & Hp & Hs). inversion Hs; subst.
      eexists; split; [|eassumption]. by constructor.
    + intros (h & Hp & Hs). inversion Hp; subst.
      eexists; split; [eassumption|]. by constructor.
  - rewrite IH. split.
    + intros (h & Hp & Hs). inversion Hs; subst.
      eexists; split; [|eassumption]. by constructor.
    + intros (h & Hp & Hs). inversion Hp; subst.
      eexists; split; [eassumption|]. by constructor.
Qed.

Lemma elem_of_refs_node x l n r :
  x ∈ refs (RNode l n r) ↔ x ∈ refs l ∨ x = n ∨ x ∈ refs r.
Proof. simpl. rewrite elem_of_app, elem_of_cons. tauto. Qed.

Lemma NoDup_refs_node l n r :
  NoDup (refs (RNode l n r))
  ↔ NoDup (refs l) ∧ NoDup (refs r) ∧ (n ∉ refs l) ∧ (n ∉ refs r)
    ∧ ∀ x, x ∈ refs l → x ∉ refs r.
Proof.
  simpl. rewrite NoDup_app, NoDup_cons. split.
  - intros (Hl & Hlr & Hn & Hr). repeat split; try done.
    + intros H. apply (Hlr _ H). apply elem_of_cons. by left.
    + intros x H H'. apply (Hlr _ H). apply elem_of_cons. by right.
  - intros (Hl & Hr & Hnl & Hnr & Hlr). repeat split; try done.
    intros x H H'. apply elem_of_cons in H' as [->|H']; [done | by apply (Hlr x)].
Qed.

Lemma linked_frame t t' p p' n rt :
  linked t p n rt →
  nil t' = nil t → length (heap t') = length (heap t) →
  NoDup (refs rt) →
  (∀ m, m ∈ refs rt →
        left_of t' m = left_of t m ∧ right_of t' m = right_of t m) →
  (∀ m, m ∈ refs rt → m ≠ n → parent_of t' m = parent_of t m) →
  (n ≠ nil t → parent_of t' n = p') →
  linked t' p' n rt.
Proof.
  intros H Hnil Hlen. revert p'.
  induction H as [|p n l r Hn Hlt Hp Hl IHl Hr IHr]; intros p' Hnd Hc Hpar Hroot.
  - rewrite <- Hnil. constructor.
  - apply NoDup_refs_node in Hnd as (Hndl & Hndr & Hnl & Hnr & Hlr).
    destruct (Hc n) as [El Er]; [apply elem_of_refs_node; auto|].
    constructor; [congruence | lia | auto | |].
    + assert (Hin : left_of t n ≠ nil t → left_of t n ∈ refs l)
        by (intros; eapply linked_root_elem; eauto).
      rewrite El. apply IHl; [done | | |].
      * intros; apply Hc. apply elem_of_refs_node; auto.
      * intros m Hm _. apply Hpar; [apply elem_of_refs_node; auto|]. by intros ->.
      * intros Hne. rewrite Hpar; [by inversion Hl; subst | apply elem_of_refs_node; auto |].
        intros E. apply Hnl. rewrite <- E. auto.
    + assert (Hin : right_of t n ≠ nil t → right_of t n ∈ refs r)
        by (intros; eapply linked_root_elem; eauto).
      rewrite Er. apply IHr; [done | | |].
      * intros; apply Hc. apply elem_of_refs_node; auto.
      * intros m Hm _. apply Hpar; [apply elem_of_refs_node; auto|]. by intros ->.
      * intros Hne. rewrite Hpar; [by inversion Hr; subst | apply elem_of_refs_node; auto |].
        intros E. apply Hnr. rewrite <- E. auto.
Qed.

Lemma refs_plug_perm s c : refs (plug s c) ≡ₚ refs s ++ path_refs c.
Proof. rewrite refs_plug. unfold path_refs. solve_Permutation. Qed.

Lemma path_refs_left up n r : path_refs (PLeft up n r) ≡ₚ n :: refs r ++ path_refs up.
Proof. unfold path_refs. simpl. solve_Permutation. Qed.

Lemma path_refs_right l n up : path_refs (PRight l n up) ≡ₚ n :: refs l ++ path_refs up.
Proof. unfold path_refs. simpl. solve_Permutation. Qed.

Lemma NoDup_refs_plug s c :
  NoDup (refs (plug s c))
  ↔ NoDup (refs s) ∧ NoDup (path_refs c) ∧ ∀ m, m ∈ refs s → m ∉ path_refs c.
Proof. rewrite refs_plug_perm, NoDup_app. tauto. Qed.

Lemma elem_of_path_refs_left m up n r :
  m ∈ path_refs (PLeft up n r) ↔ m = n ∨ m ∈ refs r ∨ m ∈ path_refs up.
Proof. rewrite path_refs_left, elem_of_cons, elem_of_app. tauto. Qed.

Lemma elem_of_path_refs_right m l n up :
  m ∈ path_refs (PRight l n up) ↔ m = n ∨ m ∈ refs l ∨ m ∈ path_refs up.
Proof. rewrite path_refs_right, elem_of_cons, elem_of_app. tauto. Qed.

Lemma NoDup_path_refs_left up n r :
  NoDup (path_refs (PLeft up n r))
  ↔ (n ∉ refs r) ∧ (n ∉ path_refs up) ∧ NoDup (refs r) ∧ NoDup (path_refs up)
    ∧ ∀ m, m ∈ refs r → m ∉ path_refs up.
Proof.
  rewrite path_refs_left, NoDup_cons, NoDup_app, not_elem_of_app. tauto.
Qed.

Lemma NoDup_path_refs_right l n up :
  NoDup (path_refs (PRight l n up))
  ↔ (n ∉ refs l) ∧ (n ∉ path_refs up) ∧ NoDup (refs l) ∧ NoDup (path_refs up)
    ∧ ∀ m, m ∈ refs l → m ∉ path_refs up.
Proof.
  rewrite path_refs_right, NoDup_cons, NoDup_app, not_elem_of_app. tauto.
Qed.

Lemma linked_same t t' p n rt :
  linked t p n rt →
  nil t' = nil t → length (heap t') = length (heap t) →
  (∀ m, m ∈ refs rt →
        left_of t' m = left_of t m ∧ right_of t' m = right_of t m
        ∧ parent_of t' m = parent_of t m) →
  linked t' p n rt.
Proof.
  intros H Hnil Hlen.
  induction H as [|p n l r Hn Hlt Hp Hl IHl Hr IHr]; intros Hc.
  - rewrite <- Hnil. constructor.
  - destruct (Hc n) as (El & Er & Ep); [apply elem_of_refs_node; auto|].
    constructor; [congruence | lia | congruence | |].
    + rewrite El. apply IHl. intros; apply Hc, elem_of_refs_node; auto.
    + rewrite Er. apply IHr. intros; apply Hc, elem_of_refs_node; auto.
Qed.

Lemma linked_path_same t t' p0 n0 c h :
  linked_path t p0 n0 c h →
  nil t' = nil t → length (heap t') = length (heap t) →
  (∀ m, m ∈ path_refs c →
        left_of t' m = left_of t m ∧ right_of t' m = right_of t m
        ∧ parent_of t' m = parent_of t m) →
  linked_path t' p0 n0 c h.
Proof.
  intros H Hnil Hlen.
  induction H as [|up n r h Hn Hlt Hp Hh Hr Hup IH|l n up h Hn Hlt Hp Hl Hh Hup IH];
    intros Hc.
  - constructor.
  - destruct (Hc n) as (El & Er & Ep); [apply elem_of_path_refs_left; auto|].
    constructor; [congruence | lia | congruence | congruence | |].
    + rewrite Er. eapply linked_same; eauto.
      intros; apply Hc, elem_of_path_refs_left; auto.
    + apply IH. intros; apply Hc, elem_of_path_refs_left; auto.
  - destruct (Hc n) as (El & Er & Ep); [apply elem_of_path_refs_right; auto|].
    constructor; [congruence | lia | congruence | | congruence |].
    + rewrite El. eapply linked_same; eauto.
      intros; apply Hc, elem_of_path_refs_right; auto.
    + apply IH. intros; apply Hc, elem_of_path_refs_right; auto.
Qed.

Lemma linked_replace t t' p0 n0 s' c h h' :
  linked_path t p0 n0 c h →
  nil t' = nil t → length (heap t') = length (heap t) →
  NoDup (path_refs c) →
  (∀ m, m ∈ path_refs c → parent_of t' m = parent_of t m) →
  (∀ m, m ∈ path_refs c → m ≠ hparent p0 c →
        left_of t' m = left_of t m ∧ right_of t' m = right_of t m) →
  match c with
  | PTop => True
  | PLeft _ n _ => left_of t' n = h' ∧ right_of t' n = right_of t n
  | PRight _ n _ => left_of t' n = left_of t n ∧ right_of t' n = h'
  end →
  linked t' (hparent p0 c) h' s' →
  linked t' p0 (top_root c h' n0) (plug s' c).
Proof.
  intros Hp Hnil Hlen Hnd Hpar Hch Hlink Hs.
  apply linked_plug. exists h'. split; [|done]. clear Hs.
  destruct c as [|up n r|l n up]; simpl in *.
  - constructor.
  - inversion Hp as [|? ? ? ? Hn Hlt Hpn Hh Hr Hup|]; subst.
    apply NoDup_path_refs_left in Hnd as (Hnr & Hnup & Hndr & Hndup & Hdis).
    destruct Hlink as [El Er].
    constructor; [congruence | lia | | done | |].
    + rewrite Hpar; [done | apply elem_of_path_refs_left; auto].
    + rewrite Er. eapply linked_same; eauto. intros m Hm.
      assert (m ≠ n) by (by intros ->).
      destruct (Hch m) as [? ?]; [apply elem_of_path_refs_left; auto | done |].
      rewrite Hpar by (apply elem_of_path_refs_left; auto). done.
    + eapply linked_path_same; eauto. intros m Hm.
      assert (m ≠ n) by (by intros ->).
      destruct (Hch m) as [? ?]; [apply elem_of_path_refs_left; auto | done |].
      rewrite Hpar by (apply elem_of_path_refs_left; auto). done.
  - inversion Hp as [| |? ? ? ? Hn Hlt Hpn Hl Hh Hup]; subst.
    apply NoDup_path_refs_right in Hnd as (Hnl & Hnup & Hndl & Hndup & Hdis).
    destruct Hlink as [El Er].
    constructor; [congruence | lia | | | done |].
    + rewrite Hpar; [done | apply elem_of_path_refs_right; auto].
    + rewrite El. eapply linked_same; eauto. intros m Hm.
      assert (m ≠ n) by (by intros ->).
      destruct (Hch m) as [? ?]; [apply elem_of_path_refs_right; auto | done |].
      rewrite Hpar by (apply elem_of_path_refs_right; auto). done.
    + eapply linked_path_same; eauto. intros m Hm.
      assert (m ≠ n) by (by intros ->).
      destruct (Hch m) as [? ?]; [apply elem_of_path_refs_right; auto | done |].
      rewrite Hpar by (apply elem_of_path_refs_right; auto). done.
Qed.

Lemma linked_path_hparent t p0 n0 c h :
  linked_path t p0 n0 c h →
  match c with
  | PTop => h = n0
  | _ => hparent p0 c ≠ nil t ∧ (hparent p0 c < length (heap t))%nat
         ∧ hparent p0 c ∈ path_refs c ∧ hole_link t c h
  end.
Proof.
  destruct 1; simpl; [done| |].
  - repeat split; try done. apply elem_of_path_refs_left; auto.
  - repeat split; try done. apply elem_of_path_refs_right; auto.
Qed.

Lemma linked_refs_lt t p n rt m :
  linked t p n rt → m ∈ refs rt → (m < length (heap t))%nat.
Proof.
  induction 1 as [|p n l r Hn Hlt Hp Hl IHl Hr IHr]; intros Hm.
  - by apply elem_of_nil in Hm.
  - apply elem_of_refs_node in Hm as [Hm|[->|Hm]]; auto.
Qed.

Lemma refs_rotate a x b y d c :
  refs (plug (RNode (RNode a x b) y d) c) = refs (plug (RNode a x (RNode b y d)) c).
Proof. rewrite !refs_plug. simpl. by rewrite <- (app_assoc (refs a)). Qed.

Lemma linked_path_sibling t p0 n0 c h x :
  linked_path t p0 n0 c h → x ∉ path_refs c → x ≠ nil t →
  match c with
  | PTop => True
  | PLeft _ n _ => right_of t n ≠ x
  | PRight _ n _ => left_of t n ≠ x
  end.
Proof.
  destruct 1 as [|up n r h Hn Hlt Hp Hh Hr Hup|l n up h Hn Hlt Hp Hl Hh Hup];
    [done|..]; intros Hx Hne E; apply Hx.
  - apply elem_of_path_refs_left. right; left. rewrite <- E.
    eapply linked_root_elem; [exact Hr | congruence].
  - apply elem_of_path_refs_right. right; left. rewrite <- E.
    eapply linked_root_elem; [exact Hl | congruence].
Qed.

Lemma left_rotate_at t c a x b y d :
  well_linked t (plug (RNode a x (RNode b y d)) c) →
  let px := hparent (nil t) c in
  let bl := left_of t y in
  links (left_rotate x t) (nil t) (length (heap t)) (top_root c y (root t))
    (λ m, if decide (m = y) then x
          else if decide (m = px ∧ px ≠ nil t ∧ left_of t px = x) then y
          else left_of t m)
    (λ m, if decide (m = x) then bl
          else if decide (m = px ∧ px ≠ nil t ∧ left_of t px ≠ x) then y
          else right_of t m)
    (λ m, if decide (m = x) then y
          else if decide (m = y) then px
          else if decide (m = bl ∧ bl ≠ nil t) then x
          else parent_of t m).
Proof.
  intros [Hl Hnd] px bl. subst px bl.
  apply linked_plug in Hl as (h & Hp & Hs).
  apply NoDup_refs_plug in Hnd as (Hnds & Hndc & Hdis).
  inversion Hs as [|? ? ? ? Hx Hxlt Hxp Ha Hyd]; subst.
  inversion Hyd as [|? ? ? ? Hy Hylt Hyp Hb Hd]; subst.
  apply NoDup_refs_node in Hnds as (Hnda & Hndyd & Hxa & Hxyd & Hayd).
  set (y := right_of t x) in *. set (bl := left_of t y) in *.
  assert (Hxy : x ≠ y) by (intros E; apply Hxyd, elem_of_refs_node; auto).
  assert (Hbl : bl ≠ nil t → (bl < length (heap t))%nat ∧ bl ≠ x).
  { intros Hne.
    assert (bl ∈ refs b) by (eapply linked_root_elem; [exact Hb | done]).
    split; [eapply linked_refs_lt; [exact Hb | done]|].
    intros E. apply Hxyd, elem_of_refs_node. left. by rewrite <- E. }
  assert (Dx : x ∉ path_refs c) by (apply Hdis, elem_of_refs_node; auto).
  assert (Dy : y ∉ path_refs c)
    by (apply Hdis, elem_of_refs_node; right; right; apply elem_of_refs_node; auto).
  pose proof (linked_path_hparent _ _ _ _ _ Hp) as Hhp.
  assert (Hpx : parent_of t x ≠ nil t →
                (parent_of t x < length (heap t))%nat
                ∧ parent_of t x ≠ y ∧ parent_of t x ≠ x).
  { rewrite Hxp. destruct c; cbn [hparent] in *; [done| |];
      destruct Hhp as (_ & ? & Hin & _); intros _; (split; [done|]);
      (split; intros E; [apply Dy | apply Dx]; by rewrite <- E). }
  destruct (left_rotate_links t x Hxlt Hylt Hxy Hbl Hpx) as (N & Len & Rt & F).
  fold y bl in F, Rt. rewrite Hxp in F, Rt.
  repeat split; try done; try apply F.
  rewrite Rt. destruct c; cbn [hparent top_root] in *; [by rewrite decide_True|..];
    destruct Hhp as (? & _); by rewrite decide_False.
Qed.

Lemma left_rotate_plug t c a x b y d :
  well_linked t (plug (RNode a x (RNode b y d)) c) →
  well_linked (left_rotate x t) (plug (RNode (RNode a x b) y d) c).
Proof.
  intros W. destruct (left_rotate_at _ _ _ _ _ _ _ W) as (N & Len & Hroot & F).
  destruct W as [Hl Hnd]. split; [|by rewrite refs_rotate].
  apply linked_plug in Hl as (h & Hp & Hs).
  apply NoDup_refs_plug in Hnd as (Hnds & Hndc & Hdis).
  inversion Hs as [|? ? ? ? Hx Hxlt Hxp Ha Hyd]; subst.
  inversion Hyd as [|? ? ? ? Hy Hylt Hyp Hb Hd]; subst.
  apply NoDup_refs_node in Hnds as (Hnda & Hndyd & Hxa & Hxyd & Hayd).
  apply NoDup_refs_node in Hndyd as (Hndb & Hndd & Hyb & Hyd' & Hbd).
  set (y := right_of t x) in *. set (bl := left_of t y) in *.
  assert (Hxy : x ≠ y) by (intros E; apply Hxyd, elem_of_refs_node; auto).
  assert (Hblin : bl ≠ nil t → bl ∈ refs b) by (intros; eapply linked_root_elem; eauto).
  assert (Dx : x ∉ path_refs c) by (apply Hdis, elem_of_refs_node; auto).
  assert (Dy : y ∉ path_refs c)
    by (apply Hdis, elem_of_refs_node; right; right; apply elem_of_refs_node; auto).
  assert (Db : ∀ m, m ∈ refs b → m ∉ path_refs c)
    by (intros; apply Hdis, elem_of_refs_node; right; right; apply elem_of_refs_node; auto).
  pose proof (linked_path_hparent _ _ _ _ _ Hp) as Hhp.
  set (t' := left_rotate x t) in *.
  rewrite Hroot, N.
  apply (linked_replace t t' (nil t) (root t) _ c x y Hp N Len Hndc).
  - intros m Hm. destruct (F m) as (_ & _ & ->).
    rewrite !decide_False; [done | | |].
    + intros [E ?]. apply (Db bl); [auto | by rewrite <- E].
    + intros E. apply Dy. by rewrite <- E.
    + intros E. apply Dx. by rewrite <- E.
  - intros m Hm Hne. destruct (F m) as (-> & -> & _).
    rewrite !decide_False; [done | | | |].
    + by intros [? _].
    + intros E. apply Dx. by rewrite <- E.
    + by intros [? _].
    + intros E. apply Dy. by rewrite <- E.
  - destruct c; cbn [hparent top_root hole_link] in *; [done| |]; destruct Hhp as (? & ? & Hin & Hlk);
      destruct (F n) as (-> & -> & _).
    + rewrite (decide_False (P := n = y)) by (intros E; apply Dy; by rewrite <- E).
      rewrite (decide_False (P := n = x)) by (intros E; apply Dx; by rewrite <- E).
      rewrite decide_True by done. rewrite decide_False; [done|]. by intros (_ & _ & ?).
    + pose proof (linked_path_sibling _ _ _ _ _ x Hp Dx Hx) as Hsib.
      cbn beta iota in Hsib.
      rewrite (decide_False (P := n = y)) by (intros E; apply Dy; by rewrite <- E).
      rewrite (decide_False (P := n = x)) by (intros E; apply Dx; by rewrite <- E).
      rewrite decide_False by (by intros (_ & _ & ?)). by rewrite decide_True.
  - assert (Hpin : hparent (nil t) c ≠ nil t → hparent (nil t) c ∈ path_refs c).
    { destruct c; cbn [hparent] in *; [done|..]; intros _; apply Hhp. }
    assert (FL : ∀ m, m ≠ y → m ∉ path_refs c → left_of t' m = left_of t m).
    { intros m ? Hm. destruct (F m) as (-> & _ & _).
      rewrite !decide_False; [done | | done]. intros (-> & ? & _). auto. }
    assert (FR : ∀ m, m ≠ x → m ∉ path_refs c → right_of t' m = right_of t m).
    { intros m ? Hm. destruct (F m) as (_ & -> & _).
      rewrite !decide_False; [done | | done]. intros (-> & ? & _). auto. }
    assert (FP : ∀ m, m ≠ x → m ≠ y → m ∉ refs b → parent_of t' m = parent_of t m).
    { intros m ? ? Hm. destruct (F m) as (_ & _ & ->).
      rewrite !decide_False; [done | | done | done]. intros [E ?]. apply Hm. rewrite E. auto. }
    assert (Ea : ∀ m, m ∈ refs a → m ≠ x ∧ m ≠ y ∧ (m ∉ refs b) ∧ (m ∉ path_refs c)).
    { intros m Hm. repeat split.
      - intros E. apply Hxa. by rewrite <- E.
      - intros E. apply (Hayd m Hm), elem_of_refs_node. auto.
      - intros E. apply (Hayd m Hm), elem_of_refs_node. auto.
      - apply Hdis, elem_of_refs_node. auto. }
    assert (Eb : ∀ m, m ∈ refs b → m ≠ x ∧ m ≠ y ∧ (m ∉ path_refs c)).
    { intros m Hm. repeat split.
      - intros E. apply Hxyd, elem_of_refs_node. left. by rewrite <- E.
      - intros E. apply Hyb. by rewrite <- E.
      - by apply Db. }
    assert (Ed : ∀ m, m ∈ refs d → m ≠ x ∧ m ≠ y ∧ (m ∉ refs b) ∧ (m ∉ path_refs c)).
    { intros m Hm. repeat split.
      - intros E. apply Hxyd, elem_of_refs_node. right; right. by rewrite <- E.
      - intros E. apply Hyd'. by rewrite <- E.
      - intros E. by apply (Hbd m).
      - apply Hdis, elem_of_refs_node. right; right. apply elem_of_refs_node. auto. }
    destruct (F y) as (Ely & _ & Epy). destruct (F x) as (_ & Erx & Epx).
    rewrite decide_True in Ely by done.
    rewrite decide_False, decide_True in Epy by done.
    rewrite decide_True in Erx, Epx by done.
    constructor; [congruence | lia | done | |].
    + rewrite Ely. constructor; [congruence | lia | done | |].
      * rewrite FL by done. eapply linked_same; [exact Ha | done | done |].
        intros m Hm. destruct (Ea m Hm) as (? & ? & ? & ?).
        by rewrite FL, FR, FP.
      * rewrite Erx. eapply linked_frame; [exact Hb | done | done | done | | |].
        -- intros m Hm. destruct (Eb m Hm) as (? & ? & ?). by rewrite FL, FR.
        -- intros m Hm Hne. destruct (Eb m Hm) as (? & ? & ?).
           destruct (F m) as (_ & _ & ->). rewrite !decide_False; try done.
           by intros [? _].
        -- intros Hne. destruct (F bl) as (_ & _ & ->).
           destruct (Eb bl (Hblin Hne)) as (? & ? & ?).
           rewrite !decide_False by done. by rewrite decide_True.
    + rewrite FR by done. eapply linked_same; [exact Hd | done | done |].
      intros m Hm. destruct (Ed m Hm) as (? & ? & ? & ?).
      by rewrite FL, FR, FP.
Qed.

Lemma right_rotate_links t y :
  let x := left_of t y in
  let br := right_of t x in
  let py := parent_of t y in
  (y < length (heap t))%nat → (x < length (heap t))%nat → y ≠ x →
  (br ≠ nil t → (br < length (heap t))%nat ∧ br ≠ y) →
  (py ≠ nil t → (py < length (heap t))%nat ∧ py ≠ x ∧ py ≠ y) →
  links (right_rotate y t) (nil t) (length (heap t))
    (if decide (py = nil t) then x else root t)
    (λ m, if decide (m = y) then br
          else if decide (m = py ∧ py ≠ nil t ∧ left_of t py = y) then x
          else left_of t m)
    (λ m, if decide (m = x) then y
          else if decide (m = py ∧ py ≠ nil t ∧ left_of t py ≠ y) then x
          else right_of t m)
    (λ m, if decide (m = y) then x
          else if decide (m = x) then py
          else if decide (m = br ∧ br ≠ nil t) then y
          else parent_of t m).
Proof.
  intros x br py Hy Hx Hyx Hbr Hpy.
  unfold right_rotate. cbv zeta. fold x.
  set (t1 := set_left y (right_of t x) t).
  set (t2 := if decide (right_of t1 x ≠ nil t1)
             then set_parent (right_of t1 x) y t1 else t1).
  set (t3 := set_parent x (parent_of t2 y) t2).
  set (t4 := if decide (parent_of t3 y = nil t3) then set_root x t3
             else if decide (y = left_of t3 (parent_of t3 y))
                  then set_left (parent_of t3 y) x t3
                  else set_right (parent_of t3 y) x t3).
  pose proof (links_set_left _ _ _ _ _ _ _ y br (links_refl t) Hy) as L1.
  fold br in t1. fold t1 in L1. clearbody t1.
  assert (∃ P2, links t2 (nil t) (length (heap t)) (root t)
                  (λ m, if decide (m = y) then br else left_of t m) (right_of t) P2
                ∧ ∀ m, P2 m = if decide (m = br ∧ br ≠ nil t) then y else parent_of t m)
    as (P2 & L2 & HP2).
  { subst t2. pose proof L1 as (N1 & Len1 & Rt1 & F1).
    destruct (F1 x) as (_ & -> & _). fold br. rewrite N1.
    case_decide as Eb.
    - eexists. split.
      + apply links_set_parent; [exact L1 | by destruct (Hbr Eb)].
      + intros m. simpl. repeat case_decide; intuition.
    - eexists. split; [exact L1|].
      intros m. simpl. repeat case_decide; intuition. }
  clearbody t2. clear L1 t1.
  assert (P2 y = py) as E2.
  { rewrite HP2. destruct (decide (y = br ∧ br ≠ nil t)) as [E|E]; [|done].
    destruct E as [E1 E]. by destruct (Hbr E). }
  pose proof (links_set_parent _ _ _ _ _ _ _ x (parent_of t2 y) L2 Hx) as L3.
  fold t3 in L3. destruct L2 as (_ & _ & _ & F2).
  destruct (F2 y) as (_ & _ & E). rewrite E, E2 in L3. clear E F2.
  clearbody t3. clear t2.
  pose proof L3 as (N3 & Len3 & Rt3 & F3).
  assert (links t4 (nil t) (length (heap t))
            (if decide (py = nil t) then x else root t)
            (λ m, if decide (m = y) then br
                  else if decide (m = py ∧ py ≠ nil t ∧ left_of t py = y) then x
                  else left_of t m)
            (λ m, if decide (m = py ∧ py ≠ nil t ∧ left_of t py ≠ y) then x
                  else right_of t m)
            (λ m, if decide (m = x) then py else P2 m)) as L4.
  { subst t4. destruct (F3 y) as (_ & _ & ->). rewrite (decide_False (P := y = x)) by done.
    rewrite E2, N3. destruct (F3 py) as (-> & _ & _).
    destruct (decide (py = nil t)) as [Ep|Ep].
    - eapply links_ext; [eapply links_set_root; exact L3| | |]; intros m; simpl;
        repeat case_decide; intuition.
    - destruct (Hpy Ep) as (Hp1 & Hp2 & Hp3).
      rewrite (decide_False (P := py = y)) by done.
      destruct (decide (y = left_of t py)) as [El|El].
      + eapply links_ext; [apply links_set_left; [exact L3|done]| | |]; intros m; simpl;
          repeat case_decide; try done; exfalso; intuition congruence.
      + eapply links_ext; [apply links_set_right; [exact L3|done]| | |]; intros m; simpl;
          repeat case_decide; try done; exfalso; intuition congruence. }
  clearbody t4. clear N3 Len3 Rt3 F3 L3 t3.
  eapply links_ext;
    [apply links_set_parent; [apply links_set_right; [exact L4|done] | done] | | |];
    intros m; simpl; rewrite ?HP2; repeat case_decide; try done;
    try (exfalso; intuition congruence).
Qed.

Lemma right_rotate_at t c a x b y d :
  well_linked t (plug (RNode (RNode a x b) y d) c) →
  let py := hparent (nil t) c in
  let br := right_of t x in
  links (right_rotate y t) (nil t) (length (heap t)) (top_root c x (root t))
    (λ m, if decide (m = y) then br
          else if decide (m = py ∧ py ≠ nil t ∧ left_of t py = y) then x
          else left_of t m)
    (λ m, if decide (m = x) then y
          else if decide (m = py ∧ py ≠ nil t ∧ left_of t py ≠ y) then x
          else right_of t m)
    (λ m, if decide (m = y) then x
          else if decide (m = x) then py
          else if decide (m = br ∧ br ≠ nil t) then y
          else parent_of t m).
Proof.
  intros [Hl Hnd] py br. subst py br.
  apply linked_plug in Hl as (h & Hp & Hs).
  apply NoDup_refs_plug in Hnd as (Hnds & Hndc & Hdis).
  inversion Hs as [|? ? ? ? Hy Hylt Hyp Hxab Hd]; subst.
  inversion Hxab as [|? ? ? ? Hx Hxlt Hxp Ha Hb]; subst.
  apply NoDup_refs_node in Hnds as (Hndxab & Hndd & Hyxab & Hyd & Hxabd).
  set (x := left_of t y) in *. set (br := right_of t x) in *.
  assert (Hyx : y ≠ x) by (intros E; apply Hyxab, elem_of_refs_node; auto).
  assert (Hbr : br ≠ nil t → (br < length (heap t))%nat ∧ br ≠ y).
  { intros Hne.
    assert (br ∈ refs b) by (eapply linked_root_elem; [exact Hb | done]).
    split; [eapply linked_refs_lt; [exact Hb | done]|].
    intros E. apply Hyxab, elem_of_refs_node. right; right. by rewrite <- E. }
  assert (Dy : y ∉ path_refs c) by (apply Hdis, elem_of_refs_node; auto).
  assert (Dx : x ∉ path_refs c)
    by (apply Hdis, elem_of_refs_node; left; apply elem_of_refs_node; auto).
  pose proof (linked_path_hparent _ _ _ _ _ Hp) as Hhp.
  assert (Hpy : parent_of t y ≠ nil t →
                (parent_of t y < length (heap t))%nat
                ∧ parent_of t y ≠ x ∧ parent_of t y ≠ y).
  { rewrite Hyp. destruct c; cbn [hparent] in *; [done| |];
      destruct Hhp as (_ & ? & Hin & _); intros _; (split; [done|]);
      (split; intros E; [apply Dx | apply Dy]; by rewrite <- E). }
  destruct (right_rotate_links t y Hylt Hxlt Hyx Hbr Hpy) as (N & Len & Rt & F).
  fold x br in F, Rt. rewrite Hyp in F, Rt.
  repeat split; try done; try apply F.
  rewrite Rt. destruct c; cbn [hparent top_root] in *; [by rewrite decide_True|..];
    destruct Hhp as (? & _); by rewrite decide_False.
Qed.

Lemma right_rotate_plug t c a x b y d :
  well_linked t (plug (RNode (RNode a x b) y d) c) →
  well_linked (right_rotate y t) (plug (RNode a x (RNode b y d)) c).
Proof.
  intros W. destruct (right_rotate_at _ _ _ _ _ _ _ W) as (N & Len & Hroot & F).
  destruct W as [Hl Hnd]. split; [|by rewrite <- refs_rotate].
  apply linked_plug in Hl as (h & Hp & Hs).
  apply NoDup_refs_plug in Hnd as (Hnds & Hndc & Hdis).
  inversion Hs as [|? ? ? ? Hy Hylt Hyp Hxab Hd]; subst.
  inversion Hxab as [|? ? ? ? Hx Hxlt Hxp Ha Hb]; subst.
  apply NoDup_refs_node in Hnds as (Hndxab & Hndd & Hyxab & Hyd & Hxabd).
  apply NoDup_refs_node in Hndxab as (Hnda & Hndb & Hxa & Hxb & Hab).
  set (x := left_of t y) in *. set (br := right_of t x) in *.
  assert (Hyx : y ≠ x) by (intros E; apply Hyxab, elem_of_refs_node; auto).
  assert (Hbrin : br ≠ nil t → br ∈ refs b) by (intros; eapply linked_root_elem; eauto).
  assert (Dy : y ∉ path_refs c) by (apply Hdis, elem_of_refs_node; auto).
  assert (Dx : x ∉ path_refs c)
    by (apply Hdis, elem_of_refs_node; left; apply elem_of_refs_node; auto).
  assert (Db : ∀ m, m ∈ refs b → m ∉ path_refs c)
    by (intros; apply Hdis, elem_of_refs_node; left; apply elem_of_refs_node; auto).
  pose proof (linked_path_hparent _ _ _ _ _ Hp) as Hhp.
  set (t' := right_rotate y t) in *.
  rewrite Hroot, N.
  apply (linked_replace t t' (nil t) (root t) _ c y x Hp N Len Hndc).
  - intros m Hm. destruct (F m) as (_ & _ & ->).
    rewrite !decide_False; [done | | |].
    + intros [E ?]. apply (Db br); [auto | by rewrite <- E].
    + intros E. apply Dx. by rewrite <- E.
    + intros E. apply Dy. by rewrite <- E.
  - intros m Hm Hne. destruct (F m) as (-> & -> & _).
    rewrite !decide_False; [done | | | |].
    + by intros [? _].
    + intros E. apply Dx. by rewrite <- E.
    + by intros [? _].
    + intros E. apply Dy. by rewrite <- E.
  - destruct c; cbn [hparent top_root hole_link] in *; [done| |]; destruct Hhp as (? & ? & Hin & Hlk);
      destruct (F n) as (-> & -> & _).
    + rewrite (decide_False (P := n = y)) by (intros E; apply Dy; by rewrite <- E).
      rewrite (decide_False (P := n = x)) by (intros E; apply Dx; by rewrite <- E).
      rewrite decide_True by done. rewrite decide_False; [done|]. by intros (_ & _ & ?).
    + pose proof (linked_path_sibling _ _ _ _ _ y Hp Dy Hy) as Hsib.
      cbn beta iota in Hsib.
      rewrite (decide_False (P := n = y)) by (intros E; apply Dy; by rewrite <- E).
      rewrite (decide_False (P := n = x)) by (intros E; apply Dx; by rewrite <- E).
      rewrite decide_False by (by intros (_ & _ & ?)). by rewrite decide_True.
  - assert (Hpin : hparent (nil t) c ≠ nil t → hparent (nil t) c ∈ path_refs c).
    { destruct c; cbn [hparent] in *; [done|..]; intros _; apply Hhp. }
    assert (FL : ∀ m, m ≠ y → m ∉ path_refs c → left_of t' m = left_of t m).
    { intros m ? Hm. destruct (F m) as (-> & _ & _).
      rewrite !decide_False; [done | | done]. intros (-> & ? & _). auto. }
    assert (FR : ∀ m, m ≠ x → m ∉ path_refs c → right_of t' m = right_of t m).
    { intros m ? Hm. destruct (F m) as (_ & -> & _).
      rewrite !decide_False; [done | | done]. intros (-> & ? & _). auto. }
    assert (FP : ∀ m, m ≠ x → m ≠ y → m ∉ refs b → parent_of t' m = parent_of t m).
    { intros m ? ? Hm. destruct (F m) as (_ & _ & ->).
      rewrite !decide_False; [done | | done | done]. intros [E ?]. apply Hm. rewrite E. auto. }
    assert (Ea : ∀ m, m ∈ refs a → m ≠ x ∧ m ≠ y ∧ (m ∉ refs b) ∧ (m ∉ path_refs c)).
    { intros m Hm. repeat split.
      - intros E. apply Hxa. by rewrite <- E.
      - intros E. apply Hyxab, elem_of_refs_node. left. by rewrite <- E.
      - by apply Hab.
      - apply Hdis, elem_of_refs_node. left. apply elem_of_refs_node. auto. }
    assert (Eb : ∀ m, m ∈ refs b → m ≠ x ∧ m ≠ y ∧ (m ∉ path_refs c)).
    { intros m Hm. repeat split.
      - intros E. apply Hxb. by rewrite <- E.
      - intros E. apply Hyxab, elem_of_refs_node. right; right. by rewrite <- E.
      - by apply Db. }
    assert (Ed : ∀ m, m ∈ refs d → m ≠ x ∧ m ≠ y ∧ (m ∉ refs b) ∧ (m ∉ path_refs c)).
    { intros m Hm. repeat split.
      - intros E. apply (Hxabd x); [apply elem_of_refs_node; auto | by rewrite <- E].
      - intros E. apply Hyd. by rewrite <- E.
      - intros E. apply (Hxabd m); [apply elem_of_refs_node; auto | done].
      - apply Hdis, elem_of_refs_node. auto. }
    destruct (F y) as (Ely & _ & Epy). destruct (F x) as (_ & Erx & Epx).
    rewrite decide_True in Ely, Epy by done.
    rewrite decide_True in Erx by done.
    rewrite decide_False, decide_True in Epx by done.
    constructor; [congruence | lia | done | |].
    + rewrite FL by done. eapply linked_same; [exact Ha | done | done |].
      intros m Hm. destruct (Ea m Hm) as (? & ? & ? & ?).
      by rewrite FL, FR, FP.
    + rewrite Erx. constructor; [congruence | lia | done | |].
      * rewrite Ely. eapply linked_frame; [exact Hb | done | done | done | | |].
        -- intros m Hm. destruct (Eb m Hm) as (? & ? & ?). by rewrite FL, FR.
        -- intros m Hm Hne. destruct (Eb m Hm) as (? & ? & ?).
           destruct (F m) as (_ & _ & ->). rewrite !decide_False; try done.
           by intros [? _].
        -- intros Hne. destruct (F br) as (_ & _ & ->).
           destruct (Eb br (Hbrin Hne)) as (? & ? & ?).
           rewrite !decide_False by done. by rewrite decide_True.
      * rewrite FR by done. eapply linked_same; [exact Hd | done | done |].
        intros m Hm. destruct (Ed m Hm) as (? & ? & ? & ?).
        by rewrite FL, FR, FP.
Qed.

Lemma left_rotate_labels x t :
  stdout (left_rotate x t) = stdout t
  ∧ ∀ m, key_of (left_rotate x t) m = key_of t m
         ∧ color_of (left_rotate x t) m = color_of t m.
Proof.
  unfold left_rotate. cbv zeta.
  repeat split; repeat case_decide; autorewrite with fields; reflexivity.
Qed.

Lemma right_rotate_labels y t :
  stdout (right_rotate y t) = stdout t
  ∧ ∀ m, key_of (right_rotate y t) m = key_of t m
         ∧ color_of (right_rotate y t) m = color_of t m.
Proof.
  unfold right_rotate. cbv zeta.
  repeat split; repeat case_decide; autorewrite with fields; reflexivity.
Qed.

Lemma tree_ext t1 t2 :
  nil t1 = nil t2 → root t1 = root t2 → stdout t1 = stdout t2 →
  length (heap t1) = length (heap t2) →
  (∀ m, key_of t1 m = key_of t2 m ∧ color_of t1 m = color_of t2 m
        ∧ left_of t1 m = left_of t2 m ∧ right_of t1 m = right_of t2 m
        ∧ parent_of t1 m = parent_of t2 m) →
  t1 = t2.
Proof.
  destruct t1 as [h1 n1 r1 o1], t2 as [h2 n2 r2 o2]; simpl.
  intros -> -> -> Hlen H. f_equal.
  apply list_eq. intros i.
  destruct (decide (i < length h1)%nat) as [Hi|Hi].
  - destruct (lookup_lt_is_Some_2 h1 i Hi) as [a Ea].
    destruct (lookup_lt_is_Some_2 h2 i ltac:(lia)) as [b Eb].
    specialize (H i).
    unfold key_of, color_of, left_of, right_of, parent_of, node in H. simpl in H.
    unfold ref in *. rewrite Ea, Eb in *. simpl in H.
    destruct a, b; simpl in *. destruct H as (-> & -> & -> & -> & ->). done.
  - rewrite !lookup_ge_None_2 by lia. done.
Qed.

Lemma left_site t c a x b y d :
  well_linked t (plug (RNode a x (RNode b y d)) c) →
  let px := hparent (nil t) c in
  let bl := left_of t y in
  right_of t x = y ∧ parent_of t y = x ∧ parent_of t x = px ∧ x ≠ y
  ∧ (bl ≠ nil t → parent_of t bl = y)
  ∧ (px ≠ nil t →
     px ≠ x ∧ px ≠ y ∧ left_of t px ≠ y ∧ (left_of t px ≠ x → right_of t px = x))
  ∧ (px = nil t → root t = x).
Proof.
  intros [Hl Hnd] px bl. subst px bl.
  apply linked_plug in Hl as (h & Hp & Hs).
  apply NoDup_refs_plug in Hnd as (Hnds & Hndc & Hdis).
  inversion Hs as [|? ? ? ? Hx Hxlt Hxp Ha Hyd]; subst.
  inversion Hyd as [|? ? ? ? Hy Hylt Hyp Hb Hd]; subst.
  apply NoDup_refs_node in Hnds as (Hnda & Hndyd & Hxa & Hxyd & Hayd).
  set (y := right_of t x) in *.
  assert (Hxy : x ≠ y) by (intros E; apply Hxyd, elem_of_refs_node; auto).
  assert (Dx : x ∉ path_refs c) by (apply Hdis, elem_of_refs_node; auto).
  assert (Dy : y ∉ path_refs c)
    by (apply Hdis, elem_of_refs_node; right; right; apply elem_of_refs_node; auto).
  pose proof (linked_path_hparent _ _ _ _ _ Hp) as Hhp.
  pose proof (linked_path_sibling _ _ _ _ _ y Hp Dy Hy) as Hsy.
  do 4 (split; [done|]). split; [|split].
  - intros Hne. by inversion Hb.
  - destruct c; cbn [hparent hole_link] in *; [done|..]; intros _;
      destruct Hhp as (_ & _ & Hin & Hlk).
    + repeat split; congruence.
    + repeat split; congruence.
  - intros E. destruct c; cbn [hparent] in *; [done|..]; by destruct Hhp as (? & _).
Qed.

Lemma right_site t c a x b y d :
  well_linked t (plug (RNode (RNode a x b) y d) c) →
  let py := hparent (nil t) c in
  let br := right_of t x in
  left_of t y = x ∧ parent_of t x = y ∧ parent_of t y = py ∧ x ≠ y
  ∧ (br ≠ nil t → parent_of t br = x)
  ∧ (py ≠ nil t →
     py ≠ x ∧ py ≠ y ∧ left_of t py ≠ x ∧ (left_of t py ≠ y → right_of t py = y))
  ∧ (py = nil t → root t = y).
Proof.
  intros [Hl Hnd] py br. subst py br.
  apply linked_plug in Hl as (h & Hp & Hs).
  apply NoDup_refs_plug in Hnd as (Hnds & Hndc & Hdis).
  inversion Hs as [|? ? ? ? Hy Hylt Hyp Hxab Hd]; subst.
  inversion Hxab as [|? ? ? ? Hx Hxlt Hxp Ha Hb]; subst.
  apply NoDup_refs_node in Hnds as (Hndxab & Hndd & Hyxab & Hyd & Hxabd).
  set (x := left_of t y) in *.
  assert (Hyx : x ≠ y) by (intros E; apply Hyxab, elem_of_refs_node; auto).
  assert (Dy : y ∉ path_refs c) by (apply Hdis, elem_of_refs_node; auto).
  assert (Dx : x ∉ path_refs c)
    by (apply Hdis, elem_of_refs_node; left; apply elem_of_refs_node; auto).
  pose proof (linked_path_hparent _ _ _ _ _ Hp) as Hhp.
  pose proof (linked_path_sibling _ _ _ _ _ x Hp Dx Hx) as Hsx.
  do 4 (split; [done|]). split; [|split].
  - intros Hne. by inversion Hb.
  - destruct c; cbn [hparent hole_link] in *; [done|..]; intros _;
      destruct Hhp as (_ & _ & Hin & Hlk).
    + repeat split; congruence.
    + repeat split; congruence.
  - intros E. destruct c; cbn [hparent] in *; [done|..]; by destruct Hhp as (? & _).
Qed.

(** X12: [left_rotate(x)] at a node [x] of a well-linked tree whose right
    child [y] is a node turns the subtree [a x (b y d)] into [(a x b) y d]
    and leaves the rest of the tree as it is: the result is well linked,
    the nodes keep their in-order sequence, and no key, colour or output
    line changes. *)
Theorem left_rotate_keeps_order t c a x b y d :
  well_linked t (plug (RNode a x (RNode b y d)) c) →
  well_linked (left_rotate x t) (plug (RNode (RNode a x b) y d) c)
  ∧ refs (plug (RNode (RNode a x b) y d) c) = refs (plug (RNode a x (RNode b y d)) c)
  ∧ nil (left_rotate x t) = nil t
  ∧ stdout (left_rotate x t) = stdout t
  ∧ ∀ m, key_of (left_rotate x t) m = key_of t m
         ∧ color_of (left_rotate x t) m = color_of t m.
Proof.
  intros W. split; [by apply left_rotate_plug|]. split; [apply refs_rotate|].
  destruct (left_rotate_at _ _ _ _ _ _ _ W) as (N & _).
  destruct (left_rotate_labels x t) as (O & K). done.
Qed.

Lemma left_rotate_keeps_order_witness :
  well_linked (left_rotate 2%nat tree_123)
    (plug (RNode (RNode (RNode RLeaf 1%nat RLeaf) 2%nat RLeaf) 3%nat RLeaf) PTop)
  ∧ refs (plug (RNode (RNode (RNode RLeaf 1%nat RLeaf) 2%nat RLeaf) 3%nat RLeaf) PTop)
    = refs (plug (RNode (RNode RLeaf 1%nat RLeaf) 2%nat (RNode RLeaf 3%nat RLeaf)) PTop)
  ∧ nil (left_rotate 2%nat tree_123) = nil tree_123
  ∧ stdout (left_rotate 2%nat tree_123) = stdout tree_123
  ∧ ∀ m, key_of (left_rotate 2%nat tree_123) m = key_of tree_123 m
         ∧ color_of (left_rotate 2%nat tree_123) m = color_of tree_123 m.
Proof.
  exact (left_rotate_keeps_order tree_123 PTop (RNode RLeaf 1%nat RLeaf) 2%nat
           RLeaf 3%nat RLeaf tree_123_well_linked).
Defined.

(** X13: [right_rotate(y)] at a node [y] of a well-linked tree whose left
    child [x] is a node turns the subtree [(a x b) y d] into [a x (b y d)]
    and leaves the rest of the tree as it is: the result is well linked,
    the nodes keep their in-order sequence, and no key, colour or output
    line changes. *)
Theorem right_rotate_keeps_order t c a x b y d :
  well_linked t (plug (RNode (RNode a x b) y d) c) →
  well_linked (right_rotate y t) (plug (RNode a x (RNode b y d)) c)
  ∧ refs (plug (RNode a x (RNode b y d)) c) = refs (plug (RNode (RNode a x b) y d) c)
  ∧ nil (right_rotate y t) = nil t
  ∧ stdout (right_rotate y t) = stdout t
  ∧ ∀ m, key_of (right_rotate y t) m = key_of t m
         ∧ color_of (right_rotate y t) m = color_of t m.
Proof.
  intros W. split; [by apply right_rotate_plug|].
  split; [symmetry; apply refs_rotate|].
  destruct (right_rotate_at _ _ _ _ _ _ _ W) as (N & _).
  destruct (right_rotate_labels y t) as (O & K). done.
Qed.

Lemma right_rotate_keeps_order_witness :
  well_linked (right_rotate 2%nat tree_123)
    (plug (RNode RLeaf 1%nat (RNode RLeaf 2%nat (RNode RLeaf 3%nat RLeaf))) PTop)
  ∧ refs (plug (RNode RLeaf 1%nat (RNode RLeaf 2%nat (RNode RLeaf 3%nat RLeaf))) PTop)
    = refs (plug (RNode (RNode RLeaf 1%nat RLeaf) 2%nat (RNode RLeaf 3%nat RLeaf)) PTop)
  ∧ nil (right_rotate 2%nat tree_123) = nil tree_123
  ∧ stdout (right_rotate 2%nat tree_123) = stdout tree_123
  ∧ ∀ m, key_of (right_rotate 2%nat tree_123) m = key_of tree_123 m
         ∧ color_of (right_rotate 2%nat tree_123) m = color_of tree_123 m.
Proof.
  exact (right_rotate_keeps_order tree_123 PTop RLeaf 1%nat RLeaf 2%nat
           (RNode RLeaf 3%nat RLeaf) tree_123_well_linked).
Defined.

(** X14: [right_rotate] is the inverse of [left_rotate]: after
    [left_rotate(x)] at a node [x] of a well-linked tree whose right child
    [y] is a node, [right_rotate(y)] gives back the tree object as it was,
    link by link. *)
Theorem right_rotate_undoes_left_rotate t c a x b y d :
  well_linked t (plug (RNode a x (RNode b y d)) c) →
  right_rotate y (left_rotate x t) = t.
Proof.
  intros W.
  pose proof (left_rotate_plug _ _ _ _ _ _ _ W) as W'.
  destruct (left_rotate_at _ _ _ _ _ _ _ W) as (N & Len & Rt & F).
  destruct (right_rotate_at _ _ _ _ _ _ _ W') as (N' & Len' & Rt' & F').
  destruct (left_rotate_labels x t) as (O & K).
  destruct (right_rotate_labels y (left_rotate x t)) as (O' & K').
  destruct (left_site _ _ _ _ _ _ _ W) as (Ey & Epy & Epx & Hxy & Hbl & Hpx & Hr).
  set (t' := left_rotate x t) in *. set (t'' := right_rotate y t') in *.
  rewrite N in *. set (px := hparent (nil t) c) in *.
  assert (Erx : right_of t' x = left_of t y).
  { destruct (F x) as (_ & -> & _). by rewrite decide_True. }
  assert (Elp : px ≠ nil t → left_of t' px = if decide (left_of t px = x) then y else left_of t px).
  { intros Hne. destruct (Hpx Hne) as (? & ? & ? & ?). destruct (F px) as (-> & _ & _).
    rewrite decide_False by done. apply decide_ext. tauto. }
  apply tree_ext; try congruence.
  - rewrite Rt', Rt. destruct c; cbn [top_root]; [symmetry; by apply Hr|done..].
  - intros m. destruct (K m) as [Ek Ec]. destruct (K' m) as [Ek' Ec'].
    destruct (F' m) as (El' & Er' & Ep'). destruct (F m) as (El & Er & Ep).
    rewrite Ek', Ek, Ec', Ec, El', Er', Ep', Erx. repeat split.
    + destruct (decide (m = y)) as [->|Hmy]; [done|].
      rewrite El.
      destruct (decide (px = nil t)) as [E0|Hne].
      { rewrite !decide_False; [done | tauto | tauto]. }
      destruct (Hpx Hne) as (? & ? & ? & Hrr). rewrite (Elp Hne).
      destruct (decide (m = px)) as [->|Hmp]; [|rewrite !decide_False; [done | tauto | tauto]].
      destruct (decide (left_of t px = x)) as [E|E].
      * rewrite decide_True by done. done.
      * rewrite decide_False by tauto. rewrite decide_False by tauto. done.
    + destruct (decide (m = x)) as [->|Hmx]; [done|].
      rewrite Er.
      destruct (decide (px = nil t)) as [E0|Hne].
      { rewrite !decide_False; [done | tauto | tauto]. }
      destruct (Hpx Hne) as (? & ? & ? & Hrr). rewrite (Elp Hne).
      destruct (decide (m = px)) as [->|Hmp]; [|rewrite !decide_False; [done | tauto | tauto]].
      destruct (decide (left_of t px = x)) as [E|E].
      * rewrite decide_False by tauto. rewrite decide_False by tauto. done.
      * rewrite decide_True by done. symmetry. by apply Hrr.
    + destruct (decide (m = y)) as [->|Hmy]; [done|].
      destruct (decide (m = x)) as [->|Hmx]; [done|].
      rewrite Ep.
      destruct (decide (m = left_of t y ∧ left_of t y ≠ nil t)) as [[-> Hne]|E]; [|done].
      symmetry. by apply Hbl.
Qed.


Lemma right_rotate_undoes_left_rotate_witness :
  right_rotate 3%nat (left_rotate 2%nat tree_123) = tree_123.
Proof.
  exact (right_rotate_undoes_left_rotate tree_123 PTop (RNode RLeaf 1%nat RLeaf)
           2%nat RLeaf 3%nat RLeaf tree_123_well_linked).
Defined.

(** X15: [left_rotate] is the inverse of [right_rotate]: after
    [right_rotate(y)] at a node [y] of a well-linked tree whose left child
    [x] is a node, [left_rotate(x)] gives back the tree object as it was,
    link by link. *)
Theorem left_rotate_undoes_right_rotate t c a x b y d :
  well_linked t (plug (RNode (RNode a x b) y d) c) →
  left_rotate x (right_rotate y t) = t.
Proof.
  intros W.
  pose proof (right_rotate_plug _ _ _ _ _ _ _ W) as W'.
  destruct (right_rotate_at _ _ _ _ _ _ _ W) as (N & Len & Rt & F).
  destruct (left_rotate_at _ _ _ _ _ _ _ W') as (N' & Len' & Rt' & F').
  destruct (right_rotate_labels y t) as (O & K).
  destruct (left_rotate_labels x (right_rotate y t)) as (O' & K').
  destruct (right_site _ _ _ _ _ _ _ W) as (Ex & Epx & Epy & Hxy & Hbr & Hpy & Hr).
  set (t' := right_rotate y t) in *. set (t'' := left_rotate x t') in *.
  rewrite N in *. set (py := hparent (nil t) c) in *.
  assert (Ely : left_of t' y = right_of t x).
  { destruct (F y) as (-> & _ & _). by rewrite decide_True. }
  assert (Elp : py ≠ nil t → left_of t' py = if decide (left_of t py = y) then x else left_of t py).
  { intros Hne. destruct (Hpy Hne) as (? & ? & ? & ?). destruct (F py) as (-> & _ & _).
    rewrite decide_False by done. apply decide_ext. tauto. }
  apply tree_ext; try congruence.
  - rewrite Rt', Rt. destruct c; cbn [top_root]; [symmetry; by apply Hr|done..].
  - intros m. destruct (K m) as [Ek Ec]. destruct (K' m) as [Ek' Ec'].
    destruct (F' m) as (El' & Er' & Ep'). destruct (F m) as (El & Er & Ep).
    rewrite Ek', Ek, Ec', Ec, El', Er', Ep', Ely. repeat split.
    + destruct (decide (m = y)) as [->|Hmy]; [done|].
      rewrite El.
      destruct (decide (py = nil t)) as [E0|Hne].
      { rewrite !decide_False; [done | tauto | tauto]. }
      destruct (Hpy Hne) as (? & ? & ? & Hrr). rewrite (Elp Hne).
      destruct (decide (m = py)) as [->|Hmp]; [|rewrite !decide_False; [done | tauto | tauto]].
      destruct (decide (left_of t py = y)) as [E|E].
      * rewrite decide_True by done. done.
      * rewrite decide_False by tauto. rewrite decide_False by tauto. done.
    + destruct (decide (m = x)) as [->|Hmx]; [done|].
      rewrite Er.
      destruct (decide (py = nil t)) as [E0|Hne].
      { rewrite !decide_False; [done | tauto | tauto]. }
      destruct (Hpy Hne) as (? & ? & ? & Hrr). rewrite (Elp Hne).
      destruct (decide (m = py)) as [->|Hmp]; [|rewrite !decide_False; [done | tauto | tauto]].
      destruct (decide (left_of t py = y)) as [E|E].
      * rewrite decide_False by tauto. rewrite decide_False by tauto. done.
      * rewrite decide_True by done. symmetry. by apply Hrr.
    + destruct (decide (m = x)) as [->|Hmx]; [done|].
      destruct (decide (m = y)) as [->|Hmy]; [done|].
      rewrite Ep.
      destruct (decide (m = right_of t x ∧ right_of t x ≠ nil t)) as [[-> Hne]|E]; [|done].
      symmetry. by apply Hbr.
Qed.

Lemma left_rotate_undoes_right_rotate_witness :
  left_rotate 1%nat (right_rotate 2%nat tree_123) = tree_123.
Proof.
  exact (left_rotate_undoes_right_rotate tree_123 PTop RLeaf 1%nat RLeaf 2%nat
           (RNode RLeaf 3%nat RLeaf) tree_123_well_linked).
Defined.
